(** * Deal-stage progression and probability engine (pipeline-probs.js)

    A shallow embedding of [resolveStages], [dealsCohort], [computeProgression],
    [computeStats] and the request handler of
    scripts/analytics/pipeline-probs.js, and the properties of the stage
    resolver, the cohort filter, the two calculators and the handler.

    Modelling conventions.
    - JavaScript strings are [string]s of 8-bit characters; [toLowerCase]
      folds the letters A-Z only.
    - Objects used as dictionaries are finite maps [gmap string _] of their
      own properties; property enumeration order is not represented.
      [reached] and [wonAfter] are made by [Object.create(null)] and inherit
      nothing.  [reachedCounts], [stageLoss], [completion] and the alias map
      are plain objects: they inherit the members of [Object.prototype],
      which shows in a read of a name that is not an own property and in
      every write to ["__proto__"] (see "Plain objects" below).  The keys of
      [progressedCounts] and [progression] contain ["->"], which no inherited
      name does.
    - Counters are natural numbers.  Every other number (amounts, averages,
      probabilities) lives in an instance of [JsNumber]: [float] is the
      binary64 arithmetic JavaScript runs, [Q] is its exact idealisation.
    - Timestamps of valid dates are integers (milliseconds since the epoch).
    - The builtin [parseFloat] is a parameter of [computeStats]. *)

From Stdlib Require Import Ascii String PrimFloat QArith ZArith Permutation Sorted.
From stdpp Require Import gmap strings list.

(** ** JavaScript numbers *)

Class JsNumber (num : Type) := {
  nzero : num;
  nunit : num;
  nadd : num → num → num;
  nsub : num → num → num;
  nmul : num → num → num;
  ndiv : num → num → num;
  (** [ngt x y] is the comparison [x > y]. *)
  ngt : num → num → bool;
  (** [ntruthy x] is [ToBoolean x]: false on zero (and on NaN). *)
  ntruthy : num → bool
}.

Global Hint Mode JsNumber ! : typeclass_instances.

#[global] Instance float_number : JsNumber float := {|
  nzero := 0%float;
  nunit := 1%float;
  nadd := PrimFloat.add;
  nsub := PrimFloat.sub;
  nmul := PrimFloat.mul;
  ndiv := PrimFloat.div;
  ngt x y := PrimFloat.ltb y x;
  ntruthy x := negb (PrimFloat.eqb x 0%float) && PrimFloat.eqb x x
|}.

#[global] Instance exact_number : JsNumber Q := {|
  nzero := 0%Q;
  nunit := 1%Q;
  nadd := Qplus;
  nsub := Qminus;
  nmul := Qmult;
  ndiv := Qdiv;
  ngt x y := if Qlt_le_dec y x then true else false;
  ntruthy x := negb (Qeq_bool x 0%Q)
|}.

Section Numbers.
Context {num : Type} `{!JsNumber num}.

(** A counter that was incremented [n] times from 0, as a number. *)
Definition of_count (n : nat) : num := Nat.iter n (λ x, nadd x nunit) nzero.

(** [x || 0] on numbers. *)
Definition or_zero (x : num) : num := if ntruthy x then x else nzero.

(** [c ? a / c : 0] for a counter [c] and a counter [a]. *)
Definition ratio_or_zero (a c : nat) : num :=
  match c with
  | O => nzero
  | S _ => ndiv (of_count a) (of_count c)
  end.

(** Plain decimal literals, [digits] or [digits.digits] with an optional
    leading minus: the literals the examples below feed to the calculators.
    On these [parseFloat] returns the quotient computed here (both operands
    are exact and the division rounds once); anything else yields [0/0]. *)
Definition digit_of (c : ascii) : option nat :=
  let n := nat_of_ascii c in
  if (48 <=? n)%nat && (n <=? 57)%nat then Some (n - 48) else None.

Fixpoint digits_value (acc : num) (s : string) : option num :=
  match s with
  | EmptyString => Some acc
  | String c rest =>
      match digit_of c with
      | Some d => digits_value (nadd (nmul acc (of_count 10)) (of_count d)) rest
      | None => None
      end
  end.

Fixpoint split_dot (s : string) : string * option string :=
  match s with
  | EmptyString => (EmptyString, None)
  | String c rest =>
      if Ascii.eqb c "."%char then (EmptyString, Some rest)
      else let '(a, b) := split_dot rest in (String c a, b)
  end.

Definition pow10 (k : nat) : num := Nat.iter k (λ x, nmul x (of_count 10)) nunit.

Definition parseUnsigned (s : string) : num :=
  let '(ip, fp) := split_dot s in
  let frac := default EmptyString fp in
  match ip +:+ frac with
  | EmptyString => ndiv nzero nzero
  | String _ _ as ds =>
      match digits_value nzero ds with
      | Some m => ndiv m (pow10 (String.length frac))
      | None => ndiv nzero nzero
      end
  end.

Definition parseDecimal (s : string) : num :=
  match s with
  | String "-" rest => nsub nzero (parseUnsigned rest)
  | _ => parseUnsigned s
  end.
End Numbers.

(** ** Strings *)

Definition lower_ascii (c : ascii) : ascii :=
  let n := nat_of_ascii c in
  if (65 <=? n)%nat && (n <=? 90)%nat then ascii_of_nat (n + 32) else c.

Fixpoint toLowerCase (s : string) : string :=
  match s with
  | EmptyString => EmptyString
  | String c rest => String (lower_ascii c) (toLowerCase rest)
  end.

(** [includes s needle] is [s.includes(needle)]. *)
Fixpoint includes (s needle : string) : bool :=
  String.prefix needle s ||
  match s with
  | EmptyString => false
  | String _ rest => includes rest needle
  end.

(** [ToBoolean] on a string or on [null]/[undefined]. *)
Definition truthy_string (s : string) : bool := negb (String.eqb s "").

Definition truthy_opt (o : option string) : bool :=
  match o with
  | Some s => truthy_string s
  | None => false
  end.

(** ** Plain objects *)

(** The names a plain object (an object literal) inherits from
    [Object.prototype]: eleven methods and the accessor ["__proto__"]. *)
Definition Object_prototype_members : list string :=
  ["constructor"; "__defineGetter__"; "__defineSetter__"; "hasOwnProperty";
   "__lookupGetter__"; "__lookupSetter__"; "isPrototypeOf";
   "propertyIsEnumerable"; "toString"; "valueOf"; "__proto__";
   "toLocaleString"].

(** [obj[k] = v] on a plain object that has no own property ["__proto__"].
    A write to ["__proto__"] runs the inherited setter, which ignores a
    number and takes an object as the new prototype of [obj]: either way no
    own property appears.  Under every other name, inherited ones included,
    the write makes or updates an own property. *)
Definition plain_set {V : Type} (k : string) (v : V) (m : gmap string V)
    : gmap string V :=
  if String.eqb k "__proto__" then m else <[k := v]> m.

(** [obj[k]++] on a plain object of counters, for a key that is an own
    property unless it is ["__proto__"].  Read through ["__proto__"] the
    object yields its prototype, whose successor is NaN, and the write of
    that number is ignored. *)
Definition plain_incr (k : string) (m : gmap string nat) : gmap string nat :=
  plain_set k (S (default 0 (m !! k))) m.

(** What [obj[k] || 0] yields on a plain object of counters: the counter of
    an own property, an inherited member (a function or [Object.prototype]
    itself, both truthy), or 0. *)
Inductive reading : Type :=
  | Counter (n : nat)
  | Inherited.

(** The sum of two readings of one property: counters add, an inherited
    member stays what it is. *)
Definition reading_plus (a b : reading) : reading :=
  match a, b with
  | Counter n, Counter m => Counter (n + m)
  | _, _ => Inherited
  end.

Definition plain_get_or_zero (m : gmap string nat) (k : string) : reading :=
  match m !! k with
  | Some n => Counter n
  | None =>
      if bool_decide (k ∈ Object_prototype_members) then Inherited
      else Counter 0
  end.

(** ** Stage catalog resolver *)

Definition FRIENDLY_ORDER : list string :=
  ["inbox"; "sequenced"; "engaging"; "responsive"; "advising"; "negotiation";
   "contact"; "closedwon"].

Definition DEFAULT_ALIASES : gmap string (list string) :=
  list_to_map
    [("inbox", ["inbox"; "sql"; "appointmentscheduled"]);
     ("sequenced", ["sequenced"]);
     ("engaging", ["engaging"; "presentationscheduled"; "email opened"; "clicked"]);
     ("responsive", ["responsive"; "replied"; "decisionmakerboughtin"]);
     ("advising", ["advising"]);
     ("negotiation", ["negotiation"; "contractsent"]);
     ("contact", ["contact"; "deposit"; "quote accepted"; "qualifiedtobuy"]);
     ("closedwon", ["closedwon"; "closed won"; "won"])].

(** A stage of a pipeline definition; the label may be missing. *)
Record stage_def := {
  sd_id : string;
  sd_label : option string
}.

(** A pipeline definition; [stages] may be missing. *)
Record pipeline_def := {
  pd_id : string;
  pd_stages : option (list stage_def)
}.

(** The response of [pipelinesApi.getAll('deals')]; [results] may be missing. *)
Record catalog := {
  cat_results : option (list pipeline_def)
}.

(** What a call either returns or throws. *)
Inductive outcome (A : Type) : Type :=
  | Returns (a : A)
  | Throws (message : string).
Arguments Returns {A} a.
Arguments Throws {A} message.

(** The error of a missing pipeline definition. *)
Definition ConfigurationError {A : Type} : outcome A :=
  Throws "No deal pipeline found for stage resolution".

(** The error of [for (const a of aliases)] on a value that is not iterable. *)
Definition TypeError {A : Type} : outcome A :=
  Throws "aliases is not iterable".

Record resolved := {
  r_stages : list string;
  r_wonStage : option string
}.

(** [(pipe.stages || []).map(s => ({id, label: (s.label || '').toLowerCase()}))] *)
Definition stageList_of (pipe : pipeline_def) : list (string * string) :=
  map (λ s, (sd_id s, toLowerCase (default "" (sd_label s))))
      (default [] (pd_stages pipe)).

Fixpoint findIdByAliases (stageList : list (string * string))
    (aliases : list string) : option string :=
  match aliases with
  | [] => None
  | a :: rest =>
      let needle := toLowerCase a in
      match List.find (λ s, includes (snd s) needle) stageList with
      | Some hit => Some (fst hit)
      | None => findIdByAliases stageList rest
      end
  end.

(** [aliasMap[key] || [key]] for a key that names no member of
    [Object.prototype], such as ["closedwon"]: the own entry or [[key]]. *)
Definition aliases_of (aliasMap : gmap string (list string)) (key : string)
    : list string :=
  default [key] (aliasMap !! key).

(** [aliasMap[key] || [key]] for any key of the alias map, a plain object:
    the own entry (an array, truthy even when empty); failing that the
    inherited member of that name, which is truthy and which no
    [for ... of] can iterate ([None]); failing that [[key]]. *)
Definition alias_list (aliasMap : gmap string (list string)) (key : string)
    : option (list string) :=
  match aliasMap !! key with
  | Some aliases => Some aliases
  | None =>
      if bool_decide (key ∈ Object_prototype_members) then None
      else Some [key]
  end.

(** The loop that fills [mapped], from the keys still to visit and the ids
    pushed so far. *)
Fixpoint mapped_from (stageList : list (string * string))
    (aliasMap : gmap string (list string)) (friendlyOrder : list string)
    (mapped : list string) : outcome (list string) :=
  match friendlyOrder with
  | [] => Returns mapped
  | key :: rest =>
      match alias_list aliasMap key with
      | None => TypeError
      | Some aliases =>
          let id := findIdByAliases stageList aliases in
          mapped_from stageList aliasMap rest
            match id with
            | Some i => if truthy_string i then mapped ++ [i] else mapped
            | None => mapped
            end
      end
  end.

(** What the loop pushes when every key has an alias list. *)
Definition mapped_of (stageList : list (string * string))
    (friendlyOrder : list string) (aliasMap : gmap string (list string))
    : list string :=
  fold_left
    (λ mapped key,
       let id := findIdByAliases stageList (aliases_of aliasMap key) in
       match id with
       | Some i => if truthy_string i then mapped ++ [i] else mapped
       | None => mapped
       end)
    friendlyOrder [].

(** [pipelineId ? pipelines.find(p => p.id === pipelineId) : pipelines[0]] *)
Definition select_pipeline (pipelines : list pipeline_def)
    (pipelineId : option string) : option pipeline_def :=
  if truthy_opt pipelineId
  then List.find (λ p, bool_decide (Some (pd_id p) = pipelineId)) pipelines
  else head pipelines.

(** [mapped.filter(s => s !== closedWonId)], [closedWonId] a string or null. *)
Definition without (closedWonId : option string) (mapped : list string)
    : list string :=
  List.filter (λ s, negb (bool_decide (Some s = closedWonId))) mapped.

Definition resolveStages (res : catalog) (pipelineId : option string)
    (friendlyOrder : list string) (aliasMap : gmap string (list string))
    : outcome resolved :=
  let pipelines := default [] (cat_results res) in
  match select_pipeline pipelines pipelineId with
  | None => ConfigurationError
  | Some pipe =>
      let stageList := stageList_of pipe in
      match mapped_from stageList aliasMap friendlyOrder [] with
      | Throws message => Throws message
      | Returns mapped =>
          let cwAliases := aliases_of aliasMap "closedwon" in
          let closedWonId := findIdByAliases stageList cwAliases in
          let stages := without closedWonId mapped in
          let stages :=
            if truthy_opt closedWonId
            then stages ++ option_list closedWonId
            else stages in
          Returns {| r_stages := stages;
                     r_wonStage := if truthy_opt closedWonId then closedWonId
                                   else last stages |}
      end
  end.

(** ** Deals *)

(** The values a loosely typed property can hold. *)
Inductive jsval : Type :=
  | JsUndefined
  | JsNull
  | JsBool (b : bool)
  | JsString (s : string).

(** [v === 'true'] *)
Definition is_true_string (v : jsval) : bool :=
  match v with
  | JsString s => String.eqb s "true"
  | _ => false
  end.

(** One record of a property history: [{value, timestamp}]. *)
Record history_entry := {
  h_value : string;
  h_timestamp : Z
}.

Record deal := {
  deal_id : string;
  (** [properties.amount] *)
  d_amount : option string;
  (** [properties.hs_is_closed_won] *)
  d_hs_is_closed_won : jsval;
  (** [new Date(properties.createdate)]; [None] is an invalid date. *)
  d_createdate : option Z;
  (** [properties.pipeline] *)
  d_pipeline : option string;
  (** [propertiesWithHistory?.dealstage] *)
  d_dealstage : option (list history_entry)
}.

(** ** Cohort extractor *)

(** A page of the deal store: [results] and [paging?.next?.after]. *)
Record page := {
  pg_results : list deal;
  pg_after : option string
}.

(** [getPage(limit, after, properties, propertiesWithHistory)], as a function
    of the cursor. *)
Definition deal_store := option string → page.

(** Comparison of two dates; an invalid date compares false with everything. *)
Definition date_le (a b : option Z) : bool :=
  match a, b with
  | Some x, Some y => (x <=? y)%Z
  | _, _ => false
  end.

(** The test guarding [yield d]. *)
Definition in_cohort (start end_ : option Z) (pipeline : option string)
    (d : deal) : bool :=
  date_le start (d_createdate d) && date_le (d_createdate d) end_ &&
  (negb (truthy_opt pipeline) || bool_decide (d_pipeline d = pipeline)).

(** The generator, drained: the sequence of deals it yields.  [fuel] bounds
    the number of pages fetched; [None] when it runs out. *)
Fixpoint dealsCohort (fuel : nat) (hubspotClient : deal_store)
    (after : option string) (start end_ : option Z) (pipeline : option string)
    : option (list deal) :=
  match fuel with
  | O => None
  | S fuel' =>
      let resp := hubspotClient after in
      let yielded := List.filter (in_cohort start end_ pipeline) (pg_results resp) in
      if truthy_opt (pg_after resp)
      then option_map (app yielded)
             (dealsCohort fuel' hubspotClient (pg_after resp) start end_ pipeline)
      else Some yielded
  end.

(** ** Progression calculator *)

(** [m[k] = (m[k] || 0) + 1] on an object without prototype, and on a plain
    object under a key that names no inherited member. *)
Definition incr (k : string) (m : gmap string nat) : gmap string nat :=
  <[k := S (default 0 (m !! k))]> m.

(** A sorted history entry [{v, t}]. *)
Definition vt : Type := string * Z.

(** [Array.prototype.sort] with the comparator [(a, b) => a.t - b.t]: the
    stable sort by ascending [t]. *)
Fixpoint insert_sorted (x : vt) (l : list vt) : list vt :=
  match l with
  | [] => [x]
  | y :: rest =>
      if (snd x <=? snd y)%Z then x :: y :: rest else y :: insert_sorted x rest
  end.

Fixpoint sort_by_t (l : list vt) : list vt :=
  match l with
  | [] => []
  | x :: rest => insert_sorted x (sort_by_t rest)
  end.

(** [(d.propertiesWithHistory?.dealstage || []).map(h => ({v, t}))] *)
Definition raw_hist (d : deal) : list vt :=
  map (λ h, (h_value h, h_timestamp h)) (default [] (d_dealstage d)).

Definition sorted_hist (d : deal) : list vt := sort_by_t (raw_hist d).

(** [hist.find(h => h.v === s)?.t] *)
Definition first_t (hist : list vt) (s : string) : option Z :=
  snd <$> List.find (λ h, String.eqb (fst h) s) hist.

(** [tsS != null && tsS1 != null && tsS1 > tsS] *)
Definition advanced (hist : list vt) (s s1 : string) : bool :=
  match first_t hist s, first_t hist s1 with
  | Some tsS, Some tsS1 => (tsS <? tsS1)%Z
  | _, _ => false
  end.

(** The key [`${s}->${s1}`]. *)
Definition edge_key (s s1 : string) : string := s +:+ "->" +:+ s1.

(** The pairs [(stages[i], stages[i + 1])] for [i] from 0 to [length - 2]. *)
Fixpoint adjacent (stages : list string) : list (string * string) :=
  match stages with
  | s :: (s1 :: _) as rest => (s, s1) :: adjacent rest
  | _ => []
  end.

(** [new Set(xs)] as the list of its members in insertion order. *)
Fixpoint set_add_all (seen xs : list string) : list string :=
  match xs with
  | [] => seen
  | x :: rest =>
      if bool_decide (x ∈ seen) then set_add_all seen rest
      else set_add_all (seen ++ [x]) rest
  end.

Definition new_Set (xs : list string) : list string := set_add_all [] xs.

(** [set.has(s)] *)
Definition has (set : list string) (s : string) : bool := bool_decide (s ∈ set).

(** The body of [for (const d of deals)] in [computeProgression]. *)
Definition progression_step (stages : list string)
    (acc : gmap string nat * gmap string nat) (d : deal)
    : gmap string nat * gmap string nat :=
  let '(progressedCounts, reachedCounts) := acc in
  let hist := sorted_hist d in
  let reachedSet := new_Set (map fst hist) in
  let reachedCounts :=
    fold_left (λ rc s, if has reachedSet s then plain_incr s rc else rc)
              stages reachedCounts in
  let progressedCounts :=
    fold_left (λ pc '(s, s1),
                 if advanced hist s s1 then incr (edge_key s s1) pc else pc)
              (adjacent stages) progressedCounts in
  (progressedCounts, reachedCounts).

(** [for (const s of stages) reachedCounts[s] = 0] *)
Definition zero_counts (stages : list string) : gmap string nat :=
  fold_left (λ rc s, plain_set s 0 rc) stages ∅.

(** The counting loop: [(progressedCounts, reachedCounts)] after all deals. *)
Definition progression_counts (stages : list string) (deals : list deal)
    : gmap string nat * gmap string nat :=
  fold_left (progression_step stages) deals (∅, zero_counts stages).

Section Calculators.
Context {num : Type} `{!JsNumber num}.

(** [fromReached ? progressed / fromReached : 0]; an inherited member is
    truthy and divides to NaN, which is [0/0]. *)
Definition advance_ratio (progressed : nat) (fromReached : reading) : num :=
  match fromReached with
  | Counter c => ratio_or_zero progressed c
  | Inherited => ndiv nzero nzero
  end.

Record edge := {
  from_reached : reading;
  progressed : nat;
  p_advance : num
}.

Record progression_result := {
  progression : gmap string edge;
  stageLoss : gmap string num;
  reachedCounts : gmap string nat
}.

Definition computeProgression (stages : list string) (deals : list deal)
    : progression_result :=
  let '(progressedCounts, reachedCounts) := progression_counts stages deals in
  let '(progression, stageLoss) :=
    fold_left
      (λ '(progression, stageLoss) '(s, s1),
         let key := edge_key s s1 in
         let fromReached := plain_get_or_zero reachedCounts s in
         let progressed := default 0 (progressedCounts !! key) in
         let p_advance := advance_ratio progressed fromReached in
         (<[key := {| from_reached := fromReached; progressed := progressed;
                      p_advance := p_advance |}]> progression,
          plain_set s (nsub nunit p_advance) stageLoss))
      (adjacent stages) (∅, ∅) in
  {| progression := progression; stageLoss := stageLoss;
     reachedCounts := reachedCounts |}.

(** ** Valuation and completion calculator *)

Variable parseFloat : string → num.

(** [parseFloat(d.properties.amount || '0') || 0] *)
Definition amount_of (d : deal) : num :=
  let text := match d_amount d with
              | Some s => if truthy_string s then s else "0"
              | None => "0"
              end in
  or_zero (parseFloat text).

(** [isWon]: [hs_is_closed_won === 'true' || ever.has(wonStage)] *)
Definition isWon (wonStage : option string) (d : deal) (ever : list string)
    : bool :=
  is_true_string (d_hs_is_closed_won d) ||
  match wonStage with
  | Some w => has ever w
  | None => false
  end.

(** The loop state of [computeStats]. *)
Record tally := {
  t_reached : gmap string nat;
  t_wonAfter : gmap string nat;
  t_wonCount : nat;
  t_wonSum : num
}.

(** The body of [for (const d of deals)] in [computeStats]. *)
Definition stats_step (wonStage : option string) (t : tally) (d : deal)
    : tally :=
  let hist := default [] (d_dealstage d) in
  match hist with
  | [] => t
  | _ :: _ =>
      let ever := new_Set (map h_value hist) in
      let reached := fold_left (λ m s, incr s m) ever (t_reached t) in
      if isWon wonStage d ever then
        let wonAfter := fold_left (λ m s, incr s m) ever (t_wonAfter t) in
        let amt := amount_of d in
        {| t_reached := reached; t_wonAfter := wonAfter;
           t_wonCount := S (t_wonCount t);
           t_wonSum := if ngt amt nzero then nadd (t_wonSum t) amt
                       else t_wonSum t |}
      else
        {| t_reached := reached; t_wonAfter := t_wonAfter t;
           t_wonCount := t_wonCount t; t_wonSum := t_wonSum t |}
  end.

Definition stats_tally (wonStage : option string) (deals : list deal) : tally :=
  fold_left (stats_step wonStage) deals
    {| t_reached := ∅; t_wonAfter := ∅; t_wonCount := 0; t_wonSum := nzero |}.

Record completion_record := {
  c_reached : nat;
  c_wonAfter : nat;
  p_win : num;
  euro_value : num
}.

Record stats := {
  avgWon : num;
  reached : gmap string nat;
  wonAfter : gmap string nat;
  completion : gmap string completion_record;
  st_progression : gmap string edge;
  st_stageLoss : gmap string num
}.

(** [wonCount ? wonSum / wonCount : 0] *)
Definition average (wonSum : num) (wonCount : nat) : num :=
  match wonCount with
  | O => nzero
  | S _ => ndiv wonSum (of_count wonCount)
  end.

(** [avgWonOverride] is [Some x] when [typeof avgWonOverride === 'number']. *)
Definition computeStats (deals : list deal) (stages : list string)
    (wonStage : option string) (avgWonOverride : option num) : stats :=
  let t := stats_tally wonStage deals in
  let avgWon := match avgWonOverride with
                | Some x => x
                | None => average (t_wonSum t) (t_wonCount t)
                end in
  let completion :=
    fold_left
      (λ completion s,
         let r := default 0 (t_reached t !! s) in
         let w := default 0 (t_wonAfter t !! s) in
         let pWin := ratio_or_zero w r in
         plain_set s {| c_reached := r; c_wonAfter := w; p_win := pWin;
                        euro_value := nmul avgWon pWin |} completion)
      stages ∅ in
  let pr := computeProgression stages deals in
  {| avgWon := avgWon; reached := t_reached t; wonAfter := t_wonAfter t;
     completion := completion; st_progression := progression pr;
     st_stageLoss := stageLoss pr |}.
End Calculators.

Arguments edge : clear implicits.
Arguments progression_result : clear implicits.
Arguments tally : clear implicits.
Arguments completion_record : clear implicits.
Arguments stats : clear implicits.

(** ** Reference notions used by the properties *)

(** The pages the generator fetches, starting from the cursor [after]: it
    follows [paging.next.after] until a page carries no (truthy) cursor. *)
Inductive fetched (store : deal_store) : option string → list page → Prop :=
  | fetched_last after :
      truthy_opt (pg_after (store after)) = false →
      fetched store after [store after]
  | fetched_next after pages :
      truthy_opt (pg_after (store after)) = true →
      fetched store (pg_after (store after)) pages →
      fetched store after (store after :: pages).

(** A key of the canonical order under which the alias map has no own entry
    and inherits a member: [aliasMap[key]] is then not an alias list. *)
Definition reads_inherited (aliasMap : gmap string (list string))
    (key : string) : bool :=
  bool_decide (aliasMap !! key = None) &&
  bool_decide (key ∈ Object_prototype_members).


(** The earliest timestamp at which stage [s] appears in a history. *)
Fixpoint earliest (s : string) (hist : list vt) : option Z :=
  match hist with
  | [] => None
  | h :: rest =>
      if String.eqb (fst h) s
      then Some (match earliest s rest with
                 | Some m => Z.min (snd h) m
                 | None => snd h
                 end)
      else earliest s rest
  end.

(** [first_seen hist s t]: stage [s] appears in [hist], and [t] is the least
    timestamp it appears with. *)
Definition first_seen (hist : list vt) (s : string) (t : Z) : Prop :=
  (s, t) ∈ hist ∧ ∀ t', (s, t') ∈ hist → (t ≤ t')%Z.

(** Ascending by timestamp. *)
Definition ascending : list vt → Prop :=
  StronglySorted (λ a b, (snd a ≤ snd b)%Z).

(** The entries of a history that carry the timestamp [t], in order. *)
Definition at_time (t : Z) (hist : list vt) : list vt :=
  List.filter (λ h, (snd h =? t)%Z) hist.

(** Incrementing the counters of a list of keys, once per occurrence. *)
Definition incr_all (ks : list string) (m : gmap string nat) : gmap string nat :=
  fold_left (λ m s, incr s m) ks m.

(** The number of occurrences of [k] in [ks]. *)
Definition count_of (k : string) (ks : list string) : nat :=
  length (List.filter (String.eqb k) ks).

(** The distinct stages a deal ever reached (empty for an empty history). *)
Definition ever_of (d : deal) : list string :=
  new_Set (map h_value (default [] (d_dealstage d))).

(** A name under which a write makes an own property of a plain object. *)
Definition own_key (s : string) : bool := negb (String.eqb s "__proto__").

(** The stages of [stages] a deal reached and whose counter is an own
    property of [reachedCounts], one entry per position. *)
Definition reach_keys (stages : list string) (d : deal) : list string :=
  List.filter (λ s, has (new_Set (map fst (sorted_hist d))) s && own_key s)
              stages.

(** The keys of the adjacent pairs of [stages] along which a deal advanced. *)
Definition advance_keys (stages : list string) (d : deal) : list string :=
  map (λ p, edge_key (fst p) (snd p))
      (List.filter (λ p, advanced (sorted_hist d) (fst p) (snd p)) (adjacent stages)).

(** A deal that enters the win statistics of [computeStats]. *)
Definition counted_won (wonStage : option string) (d : deal) : bool :=
  match default [] (d_dealstage d) with
  | [] => false
  | _ :: _ => isWon wonStage d (ever_of d)
  end.

(** The stages credited to [wonAfter] by a deal. *)
Definition won_keys (wonStage : option string) (d : deal) : list string :=
  if counted_won wonStage d then ever_of d else [].

Section Reference.
Context {num : Type} `{!JsNumber num} (parseFloat : string → num).

(** A won deal whose amount is positive. *)
Definition positive_won (wonStage : option string) (d : deal) : bool :=
  counted_won wonStage d && ngt (amount_of parseFloat d) nzero.

(** The amounts of the won deals with a positive amount, added to [acc] one
    after the other in the order of the deals. *)
Definition won_sum_from (wonStage : option string) (acc : num)
    (deals : list deal) : num :=
  fold_left nadd
    (map (amount_of parseFloat) (List.filter (positive_won wonStage) deals))
    acc.

Definition won_sum (wonStage : option string) (deals : list deal) : num :=
  won_sum_from wonStage nzero deals.

(** The average the specification describes: numerator and denominator both
    range over the won deals with a positive amount. *)
Definition avgWon_positive_only (wonStage : option string)
    (deals : list deal) : num :=
  average (won_sum wonStage deals)
          (length (List.filter (positive_won wonStage) deals)).
End Reference.

(** No two adjacent pairs of [stages] with different first stages share a
    key: the keys [`${s}->${s1}`] identify the stage an edge leaves. *)
Definition distinct_keys (stages : list string) : Prop :=
  ∀ a a1 b b1,
    (a, a1) ∈ adjacent stages → (b, b1) ∈ adjacent stages →
    edge_key a a1 = edge_key b b1 → a = b.

(** A stage identifier without the character [>]. *)
Fixpoint gt_free (s : string) : bool :=
  match s with
  | EmptyString => true
  | String c rest => negb (Ascii.eqb c ">"%char) && gt_free rest
  end.

Section Entries.
Context {num : Type} `{!JsNumber num}.

(** The entry [progression[key]] written for the adjacent pair [p]. *)
Definition edge_for (pc rc : gmap string nat) (p : string * string) : edge num :=
  let fromReached := plain_get_or_zero rc (fst p) in
  let progressed := default 0 (pc !! edge_key (fst p) (snd p)) in
  {| from_reached := fromReached; progressed := progressed;
     p_advance := advance_ratio progressed fromReached |}.

(** The entry [completion[s]] written for the stage [s]. *)
Definition completion_for (reached wonAfter : gmap string nat) (avgWon : num)
    (s : string) : completion_record num :=
  let r := default 0 (reached !! s) in
  let w := default 0 (wonAfter !! s) in
  {| c_reached := r; c_wonAfter := w; p_win := ratio_or_zero w r;
     euro_value := nmul avgWon (ratio_or_zero w r) |}.
End Entries.

(** ** Sample data *)

Definition entry (v : string) (t : Z) : history_entry :=
  {| h_value := v; h_timestamp := t |}.

Definition sample_deal (id : string) (amount : option string) (flag : jsval)
    (hist : list history_entry) : deal :=
  {| deal_id := id; d_amount := amount; d_hs_is_closed_won := flag;
     d_createdate := Some 1700000000000%Z; d_pipeline := Some "default";
     d_dealstage := Some hist |}.

(** A funnel and a deal that walks through all of it and wins. *)
Definition funnel : list string := ["inbox"; "sequenced"; "closedwon"].

Definition walker : deal :=
  sample_deal "1" (Some "1000") (JsString "true")
    [entry "inbox" 10; entry "sequenced" 20; entry "closedwon" 30].

Definition idler : deal :=
  sample_deal "2" None JsUndefined [entry "inbox" 5].

(** Stage identifiers whose edge keys collide: the pairs [(a->b, c)] and
    [(a, b->c)] both have the key [a->b->c]. *)
Definition colliding_stages : list string := ["a->b"; "c"; "a"; "b->c"].

Definition colliding_deals : list deal :=
  [sample_deal "1" None JsUndefined [entry "a->b" 0; entry "c" 1; entry "a" 2];
   sample_deal "2" None JsUndefined [entry "a->b" 0; entry "c" 1]].

(** A deal that went from [a->b] to [c] and saw no other stage. *)
Definition collider : deal :=
  sample_deal "2" None JsUndefined [entry "a->b" 0; entry "c" 1].

(** A stage list that names the accessor of the prototype, and a deal that
    walks through it. *)
Definition proto_stages : list string := ["__proto__"; "won"].

Definition proto_deal : deal :=
  sample_deal "3" None JsUndefined [entry "__proto__" 0; entry "won" 1].

(** A canonical order with a key that the default aliases do not list and
    that every plain object inherits. *)
Definition odd_order : list string := ["constructor"; "inbox"].


(** A history emitted out of order, with a tie at time 20. *)
Definition shuffled : deal :=
  sample_deal "3" None JsUndefined
    [entry "sequenced" 20; entry "inbox" 20; entry "inbox" 10; entry "sequenced" 40].




(** Won deals: one of amount 100, one of amount 0, one with a blank amount. *)
Definition won_100 : deal :=
  sample_deal "5" (Some "100") (JsString "true") [entry "inbox" 5].

Definition won_zero : deal :=
  sample_deal "6" (Some "0") (JsString "true") [entry "inbox" 6].

Definition won_blank : deal :=
  sample_deal "7" None (JsString "true") [entry "inbox" 7].


(** Three won deals whose amounts are tenths. *)
Definition tenths : list deal :=
  [sample_deal "8" (Some "0.1") (JsString "true") [entry "inbox" 1];
   sample_deal "9" (Some "0.2") (JsString "true") [entry "inbox" 2];
   sample_deal "10" (Some "0.3") (JsString "true") [entry "inbox" 3]].

(** A pipeline whose won stage also matches an alias of [contact]. *)
Definition sample_pipeline : pipeline_def :=
  {| pd_id := "default";
     pd_stages := Some
       [{| sd_id := "10"; sd_label := Some "Inbox" |};
        {| sd_id := "9"; sd_label := Some "Won - Contact signed" |};
        {| sd_id := "11"; sd_label := Some "Negotiation" |}] |}.

Definition sample_catalog : catalog :=
  {| cat_results := Some [sample_pipeline] |}.




(** A deal store of two pages. *)
Definition early : deal :=
  {| deal_id := "31"; d_amount := None; d_hs_is_closed_won := JsUndefined;
     d_createdate := Some 50%Z; d_pipeline := Some "default";
     d_dealstage := None |}.

Definition on_start : deal :=
  {| deal_id := "32"; d_amount := None; d_hs_is_closed_won := JsUndefined;
     d_createdate := Some 100%Z; d_pipeline := Some "default";
     d_dealstage := None |}.

Definition on_end : deal :=
  {| deal_id := "33"; d_amount := None; d_hs_is_closed_won := JsUndefined;
     d_createdate := Some 200%Z; d_pipeline := Some "default";
     d_dealstage := None |}.

Definition elsewhere : deal :=
  {| deal_id := "34"; d_amount := None; d_hs_is_closed_won := JsUndefined;
     d_createdate := Some 150%Z; d_pipeline := Some "sales";
     d_dealstage := None |}.

Definition undated : deal :=
  {| deal_id := "35"; d_amount := None; d_hs_is_closed_won := JsUndefined;
     d_createdate := None; d_pipeline := Some "default";
     d_dealstage := None |}.

Definition page_one : page :=
  {| pg_results := [early; on_start; elsewhere]; pg_after := Some "50" |}.

Definition page_two : page :=
  {| pg_results := [undated; on_end]; pg_after := None |}.

Definition sample_store : deal_store :=
  λ after,
    match after with
    | None => page_one
    | Some _ => page_two
    end.

(** ** Further reference notions *)

Definition upper_ascii (c : ascii) : ascii :=
  let n := nat_of_ascii c in
  if (97 <=? n)%nat && (n <=? 122)%nat then ascii_of_nat (n - 32) else c.

Fixpoint toUpperCase (s : string) : string :=
  match s with
  | EmptyString => EmptyString
  | String c rest => String (upper_ascii c) (toUpperCase rest)
  end.

(** A catalog whose stage labels are rewritten by [f]. *)
Definition relabel_stage (f : string → string) (s : stage_def) : stage_def :=
  {| sd_id := sd_id s; sd_label := f <$> sd_label s |}.

Definition relabel_pipeline (f : string → string) (p : pipeline_def)
    : pipeline_def :=
  {| pd_id := pd_id p; pd_stages := map (relabel_stage f) <$> pd_stages p |}.

Definition relabel_catalog (f : string → string) (c : catalog) : catalog :=
  {| cat_results := map (relabel_pipeline f) <$> cat_results c |}.


(** A store every page of which carries a cursor. *)
Definition endless_store : deal_store :=
  λ _, {| pg_results := [on_start]; pg_after := Some "next" |}.


(** The stage [s] occurs in the stage history of the deal. *)
Definition mentions (s : string) (d : deal) : bool :=
  bool_decide (s ∈ map h_value (default [] (d_dealstage d))).

(** The deal has at least one stage history entry. *)
Definition has_history (d : deal) : bool :=
  match default [] (d_dealstage d) with
  | [] => false
  | _ :: _ => true
  end.

(** Two deals with the same amount and flag whose stage histories hold the
    same entries, in any order. *)
Definition same_up_to_history_order (d d' : deal) : Prop :=
  d_amount d = d_amount d' ∧
  d_hs_is_closed_won d = d_hs_is_closed_won d' ∧
  Permutation (default [] (d_dealstage d)) (default [] (d_dealstage d')).

(** The history of [shuffled] in chronological order. *)
Definition unshuffled : deal :=
  sample_deal "3" None JsUndefined
    [entry "inbox" 10; entry "inbox" 20; entry "sequenced" 20; entry "sequenced" 40].

(** A deal without stage history. *)
Definition blank_deal : deal :=
  {| deal_id := "40"; d_amount := Some "75"; d_hs_is_closed_won := JsString "true";
     d_createdate := Some 150%Z; d_pipeline := Some "default";
     d_dealstage := None |}.


(** ** Request handling *)

(** [s.split(sep)] for a one-character separator. *)
Fixpoint split_on (sep : ascii) (s : string) : list string :=
  match s with
  | EmptyString => [EmptyString]
  | String c rest =>
      if Ascii.eqb c sep then EmptyString :: split_on sep rest
      else match split_on sep rest with
           | h :: t => String c h :: t
           | [] => [String c EmptyString]
           end
  end.

(** The number of occurrences of a character in a string. *)
Fixpoint occurrences (c : ascii) (s : string) : nat :=
  match s with
  | EmptyString => 0
  | String c' rest => (if Ascii.eqb c' c then 1 else 0) + occurrences c rest
  end.

(** The builtins and the clock the request handler runs on.  Dates are
    [option Z]: the time value of a valid date, [None] for an invalid one. *)
Record host (num : Type) := {
  (** [Number(s)] *)
  js_Number : string → num;
  (** [parseInt(s)] *)
  js_parseInt : string → num;
  (** [parseFloat(s)] *)
  js_parseFloat : string → num;
  (** [JSON.parse(s)], for texts that denote an array of strings or fail. *)
  js_JSON_parse : string → outcome (list string);
  (** The two readings [new Date()] of [getRangeFromQuery]. *)
  js_now : Z;
  js_now_again : Z;
  (** [d.setDate(d.getDate() - n)] on the date of time value [d]. *)
  js_days_before : Z → num → option Z;
  (** [new Date(year, monthIndex, day)] *)
  js_Date : num → num → num → option Z;
  (** [new Date(d.getFullYear(), 0, 1)] *)
  js_year_start : Z → Z;
  (** [d.toISOString().slice(0, 10)] on a valid date. *)
  js_iso_day : Z → string;
  (** [new Date().toISOString()] when the report is assembled. *)
  js_iso_now : string
}.
Arguments js_Number {num} _ _.
Arguments js_parseInt {num} _ _.
Arguments js_parseFloat {num} _ _.
Arguments js_JSON_parse {num} _ _.
Arguments js_now {num} _.
Arguments js_now_again {num} _.
Arguments js_days_before {num} _ _ _.
Arguments js_Date {num} _ _ _ _.
Arguments js_year_start {num} _ _.
Arguments js_iso_day {num} _ _.
Arguments js_iso_now {num} _.

(** The query string of a request; a parameter is a string or is absent. *)
Record query := {
  q_days : option string;
  q_start : option string;
  q_end : option string;
  q_pipeline : option string;
  q_stages : option string;
  q_wonStage : option string;
  q_avgWon : option string
}.

Record range := {
  rg_start : option Z;
  rg_end : option Z
}.

Section Handler.
Context {num : Type} `{!JsNumber num} (h : host num).

(** [parseDateOnly(d)] for a query parameter: [None] is [null], [Some None] an
    invalid date. *)
Definition parseDateOnly (d : option string) : option (option Z) :=
  if truthy_opt d then
    match map (js_Number h) (split_on "-" (default EmptyString d)) with
    | y :: m :: day :: _ =>
        if negb (ntruthy y) || negb (ntruthy m) || negb (ntruthy day) then None
        else Some (js_Date h y (nsub m nunit) day)
    | _ => None
    end
  else None.

Definition getRangeFromQuery (q : query) : range :=
  if truthy_opt (q_days q) then
    let daysBack := js_parseInt h (default EmptyString (q_days q)) in
    {| rg_start := js_days_before h (js_now_again h) daysBack;
       rg_end := Some (js_now h) |}
  else
    let startYTD := js_year_start h (js_now h) in
    {| rg_start := default (Some startYTD) (parseDateOnly (q_start q));
       rg_end := default (Some (js_now h)) (parseDateOnly (q_end q)) |}.

(** The body of a successful response. *)
Record report := {
  rp_cohort_start : string;
  rp_cohort_end : string;
  rp_cohort_pipeline : string;
  rp_config_stages : list string;
  rp_config_wonStage : option string;
  (** [avgWon], [completion], [progression], [stageLoss], [raw] *)
  rp_stats : stats num;
  rp_generatedAt : string
}.

Inductive response : Type :=
  | Success (body : report)
  | Failure (status : nat) (error : string).

(** [x || null] on a query parameter. *)
Definition or_null (x : option string) : option string :=
  if truthy_opt x then x else None.

(** The stage configuration of a request: the override of the query, or the
    resolution of the catalog that [getAll] returned (or failed to). *)
Definition stage_config (q : query) (fetched_catalog : outcome catalog)
    : outcome (list string * option string) :=
  if truthy_opt (q_stages q) then
    match js_JSON_parse h (default EmptyString (q_stages q)) with
    | Returns stages =>
        Returns (stages,
                 if truthy_opt (q_wonStage q) then q_wonStage q else last stages)
    | Throws message => Throws message
    end
  else
    match fetched_catalog with
    | Returns res =>
        match resolveStages res (or_null (q_pipeline q)) FRIENDLY_ORDER
                DEFAULT_ALIASES with
        | Returns resolved => Returns (r_stages resolved, r_wonStage resolved)
        | Throws message => Throws message
        end
    | Throws message => Throws message
    end.

(** [handleGetProbabilities]: the response sent, [None] when [fuel] page
    fetches do not drain the cohort.  The deal store itself does not fail. *)
Definition handleGetProbabilities (fuel : nat) (q : query)
    (fetched_catalog : outcome catalog) (store : deal_store) : option response :=
  let rg := getRangeFromQuery q in
  let pipeline := or_null (q_pipeline q) in
  let avgWonOverride :=
    if truthy_opt (q_avgWon q)
    then Some (js_Number h (default EmptyString (q_avgWon q))) else None in
  match stage_config q fetched_catalog with
  | Throws message => Some (Failure 500 message)
  | Returns (stages, wonStage) =>
      match dealsCohort fuel store None (rg_start rg) (rg_end rg) pipeline with
      | None => None
      | Some deals =>
          let stats :=
            computeStats (js_parseFloat h) deals stages wonStage avgWonOverride in
          match rg_start rg, rg_end rg with
          | Some s, Some e =>
              Some (Success
                      {| rp_cohort_start := js_iso_day h s;
                         rp_cohort_end := js_iso_day h e;
                         rp_cohort_pipeline := default "ALL" pipeline;
                         rp_config_stages := stages;
                         rp_config_wonStage := wonStage;
                         rp_stats := stats;
                         rp_generatedAt := js_iso_now h |})
          | _, _ => Some (Failure 500 "Invalid time value")
          end
      end
  end.
End Handler.

Arguments report : clear implicits.
Arguments response : clear implicits.

(** A host for the examples, only meant to instantiate the builtins: numbers
    are read as plain decimals, a stage override is a comma-separated list,
    dates are small integers. *)
Definition sample_host : host Q :=
  {| js_Number := parseDecimal;
     js_parseInt := parseDecimal;
     js_parseFloat := parseDecimal;
     js_JSON_parse := λ s, Returns (split_on "," s);
     js_now := 200;
     js_now_again := 200;
     js_days_before := λ d n, Some (d - Qnum n)%Z;
     js_Date := λ y m d, Some (Qnum y * 372 + Qnum m * 31 + Qnum d)%Z;
     js_year_start := λ d, 0%Z;
     js_iso_day := λ d, "1970-01-01";
     js_iso_now := "1970-01-01T00:00:00.000Z" |}.

Definition empty_query : query :=
  {| q_days := None; q_start := None; q_end := None; q_pipeline := None;
     q_stages := None; q_wonStage := None; q_avgWon := None |}.

Definition override_query : query :=
  {| q_days := None; q_start := Some "0-4-8"; q_end := None;
     q_pipeline := None; q_stages := Some "inbox,sequenced";
     q_wonStage := None; q_avgWon := Some "500" |}.

Definition no_catalog : outcome catalog :=
  Returns {| cat_results := Some [] |}.


(** A date parameter that is absent, empty, or has fewer than three fields. *)
Definition incomplete_date (d : option string) : Prop :=
  d = None ∨ d = Some EmptyString ∨
  ∃ s, d = Some s ∧ occurrences "-" s < 2.

(** The report sent for [override_query] on [sample_store]. *)
Definition override_report : report Q :=
  {| rp_cohort_start := "1970-01-01";
     rp_cohort_end := "1970-01-01";
     rp_cohort_pipeline := "ALL";
     rp_config_stages := ["inbox"; "sequenced"];
     rp_config_wonStage := Some "sequenced";
     rp_stats := computeStats parseDecimal [early; on_start; elsewhere; on_end]
                   ["inbox"; "sequenced"] (Some "sequenced") (Some 500%Q);
     rp_generatedAt := "1970-01-01T00:00:00.000Z" |}.

(** * Properties *)

(** ** The stage catalog resolver *)

Lemma truthy_string_spec s : truthy_string s = true ↔ s ≠ "".
Proof.
  unfold truthy_string. destruct (String.eqb_spec s ""); simpl; split; congruence.
Qed.


Lemma truthy_opt_false o : truthy_opt o = false ↔ o = None ∨ o = Some "".
Proof.
  destruct o as [s|]; simpl; [|split; [by left | done]].
  unfold truthy_string. destruct (String.eqb_spec s "") as [->|Hne]; simpl.
  - split; [by right | done].
  - split; [done | intros [?|[= ?]]; done].
Qed.

Lemma find_none_iff {A} (f : A → bool) (l : list A) :
  List.find f l = None ↔ ∀ x, x ∈ l → f x = false.
Proof.
  split.
  - intros H x Hx. apply (find_none f l H). by apply list_elem_of_In.
  - induction l as [|a l IH]; intros H; simpl; [done|].
    rewrite (H a) by constructor. apply IH. intros x Hx. apply H. by constructor.
Qed.


(** Only truthy identifiers are pushed on [mapped]. *)
Lemma mapped_of_truthy stageList friendlyOrder aliasMap s :
  s ∈ mapped_of stageList friendlyOrder aliasMap → s ≠ "".
Proof.
  unfold mapped_of.
  assert (G : ∀ acc, (∀ x, x ∈ acc → x ≠ "") →
    s ∈ fold_left
      (λ mapped key,
         match findIdByAliases stageList (aliases_of aliasMap key) with
         | Some i => if truthy_string i then mapped ++ [i] else mapped
         | None => mapped
         end) friendlyOrder acc → s ≠ "").
  { induction friendlyOrder as [|key keys IH]; intros acc Hacc; simpl.
    - apply Hacc.
    - apply IH. destruct (findIdByAliases _ _) as [i|]; [|done].
      destruct (truthy_string i) eqn:Hi; [|done].
      intros x [Hx|Hx]%elem_of_app; [by apply Hacc|].
      apply list_elem_of_singleton in Hx as ->. by apply truthy_string_spec. }
  apply G. intros x Hx. by apply elem_of_nil in Hx.
Qed.

Lemma without_id id mapped :
  without (Some id) mapped = List.filter (λ s, negb (String.eqb s id)) mapped.
Proof.
  unfold without. induction mapped as [|x l IH]; simpl; [done|].
  rewrite IH. destruct (String.eqb_spec x id) as [->|Hne].
  - by rewrite bool_decide_eq_true_2.
  - rewrite bool_decide_eq_false_2; [done|congruence].
Qed.

Lemma without_absent o mapped :
  (∀ s, o = Some s → s ∉ mapped) → without o mapped = mapped.
Proof.
  unfold without. intros H. induction mapped as [|x l IH]; simpl; [done|].
  rewrite bool_decide_eq_false_2; simpl.
  - f_equal. apply IH. intros s Hs Hin. apply (H s Hs). by constructor.
  - intros Heq. apply (H x); [done|constructor].
Qed.


Lemma alias_list_spec aliasMap key :
  alias_list aliasMap key =
    if reads_inherited aliasMap key then None
    else Some (aliases_of aliasMap key).
Proof.
  unfold alias_list, reads_inherited, aliases_of.
  destruct (aliasMap !! key) as [l|].
  - by rewrite (bool_decide_eq_false_2 (Some l = None)).
  - rewrite (bool_decide_eq_true_2 (None = None)) by done. simpl.
    by destruct (bool_decide _).
Qed.


(** The loop that fills [mapped] stops with a [TypeError] at the first key
    that reads an inherited member, and pushes nothing else than
    [mapped_of] does. *)
Lemma mapped_from_spec stageList aliasMap friendlyOrder mapped :
  mapped_from stageList aliasMap friendlyOrder mapped =
    if forallb (λ key, negb (reads_inherited aliasMap key)) friendlyOrder
    then Returns
           (fold_left
              (λ mapped key,
                 match findIdByAliases stageList (aliases_of aliasMap key) with
                 | Some i => if truthy_string i then mapped ++ [i] else mapped
                 | None => mapped
                 end) friendlyOrder mapped)
    else TypeError.
Proof.
  revert mapped. induction friendlyOrder as [|key keys IH]; intros mapped;
    simpl; [done|].
  rewrite alias_list_spec. destruct (reads_inherited aliasMap key); simpl; [done|].
  apply IH.
Qed.

Lemma mapped_from_mapped_of stageList aliasMap friendlyOrder :
  mapped_from stageList aliasMap friendlyOrder [] =
    if forallb (λ key, negb (reads_inherited aliasMap key)) friendlyOrder
    then Returns (mapped_of stageList friendlyOrder aliasMap)
    else TypeError.
Proof. apply mapped_from_spec. Qed.

(** [resolveStages] once a pipeline is found. *)
Lemma resolveStages_found res pipelineId friendlyOrder aliasMap pipe :
  select_pipeline (default [] (cat_results res)) pipelineId = Some pipe →
  resolveStages res pipelineId friendlyOrder aliasMap =
    if forallb (λ key, negb (reads_inherited aliasMap key)) friendlyOrder
    then
      let mapped := mapped_of (stageList_of pipe) friendlyOrder aliasMap in
      let closedWonId :=
        findIdByAliases (stageList_of pipe) (aliases_of aliasMap "closedwon") in
      let stages := without closedWonId mapped in
      let stages :=
        if truthy_opt closedWonId
        then stages ++ option_list closedWonId
        else stages in
      Returns {| r_stages := stages;
                 r_wonStage := if truthy_opt closedWonId then closedWonId
                               else last stages |}
    else TypeError.
Proof.
  intros Hsel. unfold resolveStages. rewrite Hsel, mapped_from_mapped_of.
  by destruct (forallb _ friendlyOrder).
Qed.


(** C5: when [resolveStages] returns and the closedwon aliases resolve to
    a stage identifier, that identifier is filtered out of the mapped list,
    appended as the last stage and returned as [wonStage]; when they do not
    resolve, the stages are the mapped list and [wonStage] is its last
    element.  The mapped list is what the loop over the canonical order
    pushed. *)
Theorem resolveStages_closedwon_last
    (res : catalog) (pipelineId : option string)
    (friendlyOrder : list string) (aliasMap : gmap string (list string))
    (pipe : pipeline_def) (r : resolved) :
  select_pipeline (default [] (cat_results res)) pipelineId = Some pipe →
  resolveStages res pipelineId friendlyOrder aliasMap = Returns r →
  ∃ mapped,
    mapped_from (stageList_of pipe) aliasMap friendlyOrder [] = Returns mapped
    ∧ (∀ id,
         findIdByAliases (stageList_of pipe) (aliases_of aliasMap "closedwon") =
           Some id →
         id ≠ "" →
         r_stages r = List.filter (λ s, negb (String.eqb s id)) mapped ++ [id]
         ∧ r_wonStage r = Some id)
    ∧ (findIdByAliases (stageList_of pipe) (aliases_of aliasMap "closedwon") =
         None ∨
       findIdByAliases (stageList_of pipe) (aliases_of aliasMap "closedwon") =
         Some "" →
       r_stages r = mapped ∧ r_wonStage r = last mapped).
Proof.
  intros Hsel Hres. rewrite (resolveStages_found _ _ _ _ pipe Hsel) in Hres.
  exists (mapped_of (stageList_of pipe) friendlyOrder aliasMap).
  rewrite mapped_from_spec.
  destruct (forallb _ friendlyOrder); [|done].
  injection Hres as <-. cbn [r_stages r_wonStage]. split_and!.
  - done.
  - intros id -> Hid. simpl. apply truthy_string_spec in Hid. rewrite Hid.
    by rewrite without_id.
  - intros Hcw.
    assert (truthy_opt (findIdByAliases (stageList_of pipe)
              (aliases_of aliasMap "closedwon")) = false) as ->
      by by apply truthy_opt_false.
    rewrite without_absent; [done|].
    intros s Hs Hin. destruct Hcw as [Hcw|Hcw]; rewrite Hcw in Hs; [done|].
    injection Hs as <-. by apply mapped_of_truthy in Hin.
Qed.


(** ** The cohort extractor *)

Lemma date_le_spec a b :
  date_le a b = true ↔ ∃ x y, a = Some x ∧ b = Some y ∧ (x ≤ y)%Z.
Proof.
  destruct a as [x|], b as [y|]; simpl;
    try (split; [done | intros (? & ? & ? & ? & ?); done]).
  rewrite Z.leb_le. split; [eauto | intros (? & ? & [= ->] & [= ->] & ?); done].
Qed.

Lemma in_cohort_spec start end_ pipeline d :
  in_cohort start end_ pipeline d = true ↔
    (∃ s c e, start = Some s ∧ d_createdate d = Some c ∧ end_ = Some e ∧
              (s ≤ c ≤ e)%Z)
    ∧ (∀ p, pipeline = Some p → p ≠ "" → d_pipeline d = Some p).
Proof.
  unfold in_cohort. rewrite !andb_true_iff, !date_le_spec, orb_true_iff,
    negb_true_iff, truthy_opt_false, bool_decide_eq_true. split.
  - intros [[(s & c & -> & Hc & ?) (c' & e & Hc' & -> & ?)] Hp].
    rewrite Hc in Hc'. injection Hc' as <-. split.
    + exists s, c, e. split_and!; done.
    + intros p -> Hne. destruct Hp as [[?|[= ->]]|?]; done.
  - intros [(s & c & e & -> & Hc & -> & ? & ?) Hp]. split_and!.
    + exists s, c. done.
    + exists c, e. done.
    + destruct pipeline as [p|]; [|by left; left].
      destruct (decide (p = "")) as [->|Hne]; [by left; right|].
      right. by apply Hp.
Qed.

Lemma dealsCohort_fetched store after pages start end_ pipeline :
  fetched store after pages →
  dealsCohort (length pages) store after start end_ pipeline =
    Some (List.filter (in_cohort start end_ pipeline) (flat_map pg_results pages)).
Proof.
  induction 1 as [after Hlast|after pages Hnext _ IH]; simpl.
  - rewrite Hlast. by rewrite app_nil_r.
  - rewrite Hnext, IH. simpl. by rewrite List.filter_app.
Qed.

Lemma dealsCohort_some fuel store after start end_ pipeline out :
  dealsCohort fuel store after start end_ pipeline = Some out →
  ∃ pages, fetched store after pages ∧
    out = List.filter (in_cohort start end_ pipeline) (flat_map pg_results pages).
Proof.
  revert after out. induction fuel as [|fuel IH]; intros after out; simpl; [done|].
  destruct (truthy_opt (pg_after (store after))) eqn:Hc.
  - destruct (dealsCohort fuel store _ start end_ pipeline) as [rest|] eqn:Hrest;
      [|done].
    intros [= <-]. destruct (IH _ _ Hrest) as (pages & Hf & ->).
    exists (store after :: pages). split; [by constructor|].
    simpl. by rewrite List.filter_app.
  - intros [= <-]. exists [store after]. split; [by constructor|].
    simpl. by rewrite app_nil_r.
Qed.

Lemma fetched_functional store after pages1 pages2 :
  fetched store after pages1 → fetched store after pages2 → pages1 = pages2.
Proof.
  intros H1. revert pages2.
  induction H1 as [after Hl|after pages Hn _ IH]; intros pages2 H2;
    inversion H2; subst; try congruence.
  f_equal. by apply IH.
Qed.

(** C7: the drained cohort is the sequence of the deals of the fetched pages
    that pass both tests, created within the closed interval [start, end] and,
    when a pipeline identifier is supplied, of that pipeline; it keeps their
    order and leaves out every other deal. *)
Theorem dealsCohort_exactly_in_window
    (store : deal_store) (pages : list page)
    (start end_ : option Z) (pipeline : option string) :
  fetched store None pages →
  (∃ fuel out, dealsCohort fuel store None start end_ pipeline = Some out)
  ∧ ∀ fuel out,
      dealsCohort fuel store None start end_ pipeline = Some out →
      out = List.filter (in_cohort start end_ pipeline) (flat_map pg_results pages)
      ∧ ∀ d, d ∈ out ↔
          (∃ pg, pg ∈ pages ∧ d ∈ pg_results pg)
          ∧ (∃ s c e, start = Some s ∧ d_createdate d = Some c ∧ end_ = Some e ∧
                      (s ≤ c ≤ e)%Z)
          ∧ (∀ p, pipeline = Some p → p ≠ "" → d_pipeline d = Some p).
Proof.
  intros Hf. split.
  - eexists _, _. by apply dealsCohort_fetched.
  - intros fuel out Hout.
    destruct (dealsCohort_some _ _ _ _ _ _ _ Hout) as (pages' & Hf' & ->).
    rewrite (fetched_functional _ _ _ _ Hf' Hf). split; [done|].
    intros d. rewrite list_elem_of_In, filter_In, in_flat_map, in_cohort_spec.
    split.
    + intros [(pg & Hpg & Hd) [Hw Hp]]. split_and!; [|done..].
      exists pg. by rewrite !list_elem_of_In.
    + intros ((pg & Hpg & Hd) & Hw & Hp). split; [|done].
      exists pg. by rewrite <- !list_elem_of_In.
Qed.

(** ** The stable sort of a stage history *)

Lemma insert_sorted_perm x l : Permutation (insert_sorted x l) (x :: l).
Proof.
  induction l as [|y l IH]; simpl; [done|].
  destruct (snd x <=? snd y)%Z; [done|].
  rewrite IH. apply perm_swap.
Qed.

Lemma sort_by_t_perm l : Permutation (sort_by_t l) l.
Proof.
  induction l as [|x l IH]; simpl; [done|].
  rewrite insert_sorted_perm. by constructor.
Qed.

Lemma insert_sorted_ascending x l : ascending l → ascending (insert_sorted x l).
Proof.
  unfold ascending. induction 1 as [|y l Hl IH Hy]; simpl.
  - repeat constructor.
  - destruct (Z.leb_spec (snd x) (snd y)) as [Hle|Hgt].
    + constructor; [by constructor|]. constructor; [done|].
      eapply Forall_impl; [exact Hy|]. simpl. intros; lia.
    + constructor; [done|].
      apply Forall_forall. intros z Hz. rewrite insert_sorted_perm in Hz.
      apply elem_of_cons in Hz as [->|Hz]; [lia|].
      rewrite Forall_forall in Hy. by apply Hy.
Qed.

Lemma sort_by_t_ascending l : ascending (sort_by_t l).
Proof.
  induction l as [|x l IH]; simpl; [constructor|].
  by apply insert_sorted_ascending.
Qed.

(** Stability: entries of equal timestamp keep their emission order. *)
Lemma insert_sorted_at_time t x l :
  at_time t (insert_sorted x l) = at_time t (x :: l).
Proof.
  unfold at_time. induction l as [|y l IH]; simpl; [done|].
  destruct (Z.leb_spec (snd x) (snd y)) as [Hle|Hgt]; [done|].
  simpl. rewrite IH. simpl.
  destruct (Z.eqb_spec (snd x) t) as [Hx|Hx]; [|done].
  destruct (Z.eqb_spec (snd y) t) as [Hy|Hy]; [lia|done].
Qed.

Lemma sort_by_t_stable t l : at_time t (sort_by_t l) = at_time t l.
Proof.
  induction l as [|x l IH]; simpl; [done|].
  rewrite insert_sorted_at_time. unfold at_time in *. simpl. by rewrite IH.
Qed.

Lemma first_t_elem hist s t : first_t hist s = Some t → (s, t) ∈ hist.
Proof.
  unfold first_t.
  destruct (List.find (λ h, String.eqb (fst h) s) hist) as [[v t']|] eqn:Hfind;
    [|done].
  intros [= <-]. apply find_some in Hfind as [Hin Hv].
  apply String.eqb_eq in Hv. simpl in Hv. subst v. by apply list_elem_of_In.
Qed.

Lemma first_t_cons h hist s :
  first_t (h :: hist) s = if String.eqb (fst h) s then Some (snd h) else first_t hist s.
Proof. unfold first_t. simpl. by destruct (String.eqb (fst h) s). Qed.

Lemma first_t_insert_sorted x l s :
  ascending l →
  first_t (insert_sorted x l) s =
    if String.eqb (fst x) s
    then Some (match first_t l s with
               | Some m => Z.min (snd x) m
               | None => snd x
               end)
    else first_t l s.
Proof.
  unfold ascending. induction 1 as [|y l Hl IH Hy]; simpl.
  - rewrite first_t_cons. by destruct (String.eqb (fst x) s).
  - destruct (Z.leb_spec (snd x) (snd y)) as [Hle|Hgt].
    + rewrite first_t_cons. destruct (String.eqb (fst x) s); [|done].
      destruct (first_t (y :: l) s) as [m|] eqn:Hm; [|done].
      apply first_t_elem, elem_of_cons in Hm as [<-|Hm].
      * simpl in Hle. f_equal. lia.
      * rewrite Forall_forall in Hy. apply Hy in Hm.
        simpl in Hm. f_equal. lia.
    + rewrite !first_t_cons, IH.
      destruct (String.eqb (fst y) s), (String.eqb (fst x) s); try done.
      f_equal. lia.
Qed.

Lemma first_t_sort_by_t l s : first_t (sort_by_t l) s = earliest s l.
Proof.
  induction l as [|x l IH]; simpl; [done|].
  rewrite first_t_insert_sorted by apply sort_by_t_ascending.
  by rewrite IH.
Qed.

Lemma earliest_first_seen hist s t :
  earliest s hist = Some t ↔ first_seen hist s t.
Proof.
  unfold first_seen. revert t. induction hist as [|[v u] hist IH]; intros t; simpl.
  - split; [done|]. intros [H _]. by apply elem_of_nil in H.
  - destruct (String.eqb_spec v s) as [->|Hne].
    + destruct (earliest s hist) as [m|] eqn:Hm.
      * destruct (proj1 (IH m) eq_refl) as [Hin Hmin]. split.
        -- intros [= <-]. split.
           ++ destruct (Z.min_spec u m) as [[_ ->]|[_ ->]];
                [constructor|by constructor].
           ++ intros t' [[= ->]|Hin']%elem_of_cons; [lia|].
              specialize (Hmin t' Hin'). lia.
        -- intros [Ht Hmin']. f_equal.
           assert (t ≤ u)%Z by (apply Hmin'; constructor).
           assert (t ≤ m)%Z by (apply Hmin'; by constructor).
           apply elem_of_cons in Ht as [[= ->]|Ht]; [lia|].
           specialize (Hmin t Ht). lia.
      * assert (Hnone : ∀ t', (s, t') ∉ hist).
        { intros t' Hin. destruct (earliest s hist) eqn:E; [done|].
          clear Hm IH. induction hist as [|[v' u'] hist IHh]; [by apply elem_of_nil in Hin|].
          simpl in E. destruct (String.eqb_spec v' s) as [->|Hne]; [done|].
          apply elem_of_cons in Hin as [[= ? ?]|Hin]; [congruence|by apply IHh]. }
        split.
        -- intros [= <-]. split; [constructor|].
           intros t' [[= ->]|Hin']%elem_of_cons; [lia|by apply Hnone in Hin'].
        -- intros [[[= ->]|Ht]%elem_of_cons _]; [done|by apply Hnone in Ht].
    + rewrite IH. split.
      * intros [Hin Hmin]. split; [by constructor|].
        intros t' [[= ? ?]|Hin']%elem_of_cons; [congruence|by apply Hmin].
      * intros [[[= ? ?]|Hin]%elem_of_cons Hmin]; [congruence|].
        split; [done|]. intros t' Hin'. apply Hmin. by constructor.
Qed.

Lemma advanced_spec hist s s1 :
  advanced (sort_by_t hist) s s1 = true ↔
    ∃ t t1, first_seen hist s t ∧ first_seen hist s1 t1 ∧ (t < t1)%Z.
Proof.
  unfold advanced. rewrite !first_t_sort_by_t.
  setoid_rewrite <- earliest_first_seen.
  destruct (earliest s hist) as [t|], (earliest s1 hist) as [t1|];
    try (split; [done | intros (? & ? & ? & ? & ?); done]).
  rewrite Z.ltb_lt. split; [eauto|]. by intros (? & ? & [= <-] & [= <-] & ?).
Qed.

(** ** Counters *)

Lemma incr_lookup k m j :
  incr k m !! j = if decide (k = j) then Some (S (default 0 (m !! k))) else m !! j.
Proof. unfold incr. apply lookup_insert. Qed.

Lemma count_of_cons k x ks :
  count_of k (x :: ks) = (if decide (x = k) then 1 else 0) + count_of k ks.
Proof.
  unfold count_of. simpl. destruct (String.eqb_spec k x) as [->|Hne].
  - by rewrite decide_True.
  - rewrite decide_False; [done|congruence].
Qed.

Lemma count_of_app k xs ys : count_of k (xs ++ ys) = count_of k xs + count_of k ys.
Proof. unfold count_of. by rewrite List.filter_app, length_app. Qed.

Lemma count_of_zero k ks : k ∉ ks → count_of k ks = 0.
Proof.
  induction ks as [|x ks IH]; intros Hk; [done|].
  rewrite count_of_cons, decide_False, IH; [done| |].
  - intros H. apply Hk. by constructor.
  - intros ->. apply Hk. constructor.
Qed.

Lemma count_of_pos k ks : k ∈ ks → 0 < count_of k ks.
Proof.
  induction 1 as [|x ks Hk IH]; rewrite count_of_cons.
  - rewrite decide_True by done. lia.
  - lia.
Qed.

Lemma count_of_NoDup k ks : NoDup ks → k ∈ ks → count_of k ks = 1.
Proof.
  induction 1 as [|x ks Hx Hnd IH]; intros Hk; [by apply elem_of_nil in Hk|].
  rewrite count_of_cons. apply elem_of_cons in Hk as [->|Hk].
  - rewrite decide_True by done. by rewrite count_of_zero.
  - rewrite decide_False, IH; [done..|]. by intros ->.
Qed.

Lemma count_of_perm k xs ys : Permutation xs ys → count_of k xs = count_of k ys.
Proof.
  induction 1 as [|x xs ys _ IH|x y xs|xs ys zs _ IH1 _ IH2];
    rewrite ?count_of_cons; lia.
Qed.

Lemma incr_all_lookup ks m j :
  incr_all ks m !! j =
    if bool_decide (j ∈ ks) then Some (default 0 (m !! j) + count_of j ks)
    else m !! j.
Proof.
  unfold incr_all. revert m. induction ks as [|k ks IH]; intros m; simpl; [done|].
  rewrite IH, count_of_cons, incr_lookup.
  destruct (decide (k = j)) as [->|Hne].
  - rewrite (bool_decide_eq_true_2 (j ∈ j :: ks)) by constructor.
    destruct (bool_decide_reflect (j ∈ ks)) as [Hin|Hout]; simpl.
    + f_equal. lia.
    + rewrite (count_of_zero j ks Hout). f_equal. lia.
  - destruct (bool_decide_reflect (j ∈ ks)) as [Hin|Hout].
    + rewrite bool_decide_eq_true_2 by by constructor. done.
    + rewrite bool_decide_eq_false_2; [done|].
      intros [?|?]%elem_of_cons; congruence.
Qed.

Lemma incr_all_count ks m j :
  default 0 (incr_all ks m !! j) = default 0 (m !! j) + count_of j ks.
Proof.
  rewrite incr_all_lookup. destruct (bool_decide_reflect (j ∈ ks)); [done|].
  rewrite count_of_zero by done. lia.
Qed.

Lemma incr_all_app xs ys m : incr_all (xs ++ ys) m = incr_all ys (incr_all xs m).
Proof. unfold incr_all. apply fold_left_app. Qed.

Lemma incr_all_perm xs ys m : Permutation xs ys → incr_all xs m = incr_all ys m.
Proof.
  intros Hp. apply map_eq. intros j. rewrite !incr_all_lookup.
  rewrite (count_of_perm j xs ys Hp).
  destruct (bool_decide_reflect (j ∈ xs)) as [Hx|Hx];
    rewrite Hp in Hx; [by rewrite bool_decide_eq_true_2|by rewrite bool_decide_eq_false_2].
Qed.

(** Conditional increments are increments over the filtered keys. *)
Lemma fold_incr_filter (f : string → bool) ks m :
  fold_left (λ rc s, if f s then incr s rc else rc) ks m =
    incr_all (List.filter f ks) m.
Proof.
  unfold incr_all. revert m. induction ks as [|k ks IH]; intros m; simpl; [done|].
  rewrite IH. by destruct (f k).
Qed.

Lemma fold_incr_pairs (f : string * string → bool) ps m :
  fold_left (λ pc '(s, s1), if f (s, s1) then incr (edge_key s s1) pc else pc) ps m =
    incr_all (map (λ p, edge_key (fst p) (snd p)) (List.filter f ps)) m.
Proof.
  unfold incr_all. revert m. induction ps as [|[s s1] ps IH]; intros m; simpl; [done|].
  rewrite IH. by destruct (f (s, s1)).
Qed.

Lemma count_of_flat_map_le {A} (f g : A → list string) j k (l : list A) :
  (∀ x, x ∈ l → count_of j (f x) ≤ count_of k (g x)) →
  count_of j (flat_map f l) ≤ count_of k (flat_map g l).
Proof.
  induction l as [|x l IH]; intros H; simpl; [done|].
  rewrite !count_of_app. specialize (H x) as Hx.
  specialize (Hx ltac:(constructor)).
  assert (count_of j (flat_map f l) ≤ count_of k (flat_map g l)).
  { apply IH. intros y Hy. apply H. by constructor. }
  lia.
Qed.

Lemma count_of_flat_map_eq {A} (f g : A → list string) j k (l : list A) :
  (∀ x, x ∈ l → count_of j (f x) = count_of k (g x)) →
  count_of j (flat_map f l) = count_of k (flat_map g l).
Proof.
  intros H. apply Nat.le_antisymm; apply count_of_flat_map_le;
    intros x Hx; rewrite (H x Hx); done.
Qed.

(** ** Sets of reached stages *)

Lemma set_add_all_elem seen xs s :
  s ∈ set_add_all seen xs ↔ s ∈ seen ∨ s ∈ xs.
Proof.
  revert seen. induction xs as [|x xs IH]; intros seen; simpl.
  - split; [by left | intros [?|H]; [done | by apply elem_of_nil in H]].
  - destruct (bool_decide_reflect (x ∈ seen)) as [Hx|Hx]; rewrite IH.
    + rewrite elem_of_cons. split; [intros [?|?]; auto|].
      intros [?|[->|?]]; auto.
    + rewrite elem_of_app, list_elem_of_singleton, elem_of_cons. tauto.
Qed.

Lemma set_add_all_NoDup seen xs : NoDup seen → NoDup (set_add_all seen xs).
Proof.
  revert seen. induction xs as [|x xs IH]; intros seen Hnd; simpl; [done|].
  destruct (bool_decide_reflect (x ∈ seen)) as [Hx|Hx]; apply IH; [done|].
  apply NoDup_app. split_and!; [done| |apply NoDup_singleton].
  intros y Hy ->%list_elem_of_singleton. done.
Qed.

Lemma new_Set_elem xs s : s ∈ new_Set xs ↔ s ∈ xs.
Proof.
  unfold new_Set. rewrite set_add_all_elem. split; [|by right].
  intros [H|H]; [by apply elem_of_nil in H | done].
Qed.

Lemma new_Set_NoDup xs : NoDup (new_Set xs).
Proof. apply set_add_all_NoDup, NoDup_nil_2. Qed.

Lemma count_of_new_Set xs s :
  count_of s (new_Set xs) = if bool_decide (s ∈ xs) then 1 else 0.
Proof.
  destruct (bool_decide_reflect (s ∈ xs)) as [Hin|Hout].
  - apply count_of_NoDup; [apply new_Set_NoDup | by apply new_Set_elem].
  - apply count_of_zero. by rewrite new_Set_elem.
Qed.

(** The sort does not change which stages a history mentions. *)
Lemma sorted_hist_values d s :
  s ∈ map fst (sorted_hist d) ↔ s ∈ map h_value (default [] (d_dealstage d)).
Proof.
  unfold sorted_hist. rewrite (sort_by_t_perm (raw_hist d)).
  unfold raw_hist. rewrite map_map. done.
Qed.

Lemma has_reachedSet d s :
  has (new_Set (map fst (sorted_hist d))) s = bool_decide (s ∈ ever_of d).
Proof.
  unfold has, ever_of. apply bool_decide_ext.
  by rewrite !new_Set_elem, sorted_hist_values.
Qed.

(** ** The loops in closed form *)

Lemma own_key_spec s : own_key s = true ↔ s ≠ "__proto__".
Proof.
  unfold own_key. destruct (String.eqb_spec s "__proto__"); simpl;
    split; congruence.
Qed.

Lemma elem_of_filter_own (f : string → bool) (l : list string) s :
  s ∈ List.filter f l ↔ s ∈ l ∧ f s = true.
Proof. rewrite !list_elem_of_In. apply filter_In. Qed.

(** A loop of writes on a plain object is the loop of the writes under the
    names other than ["__proto__"]. *)
Lemma fold_plain_set {A V} (kf : A → string) (vf : A → V) xs
    (m : gmap string V) :
  fold_left (λ m x, plain_set (kf x) (vf x) m) xs m =
    fold_left (λ m x, <[kf x := vf x]> m)
              (List.filter (λ x, own_key (kf x)) xs) m.
Proof.
  revert m. induction xs as [|x xs IH]; intros m; simpl; [done|].
  rewrite IH. unfold plain_set, own_key.
  by destruct (String.eqb (kf x) "__proto__").
Qed.

Lemma fold_plain_incr_filter (f : string → bool) ks m :
  fold_left (λ rc s, if f s then plain_incr s rc else rc) ks m =
    incr_all (List.filter (λ s, f s && own_key s) ks) m.
Proof.
  unfold incr_all. revert m. induction ks as [|k ks IH]; intros m; simpl; [done|].
  rewrite IH. unfold plain_incr, plain_set, own_key, incr.
  by destruct (f k), (String.eqb k "__proto__").
Qed.

Lemma zero_counts_lookup stages j :
  zero_counts stages !! j =
    if bool_decide (j ∈ stages) && own_key j then Some 0 else None.
Proof.
  unfold zero_counts. rewrite (fold_plain_set id (λ _, 0)).
  assert (G : ∀ (l : list string) (m : gmap string nat),
                 fold_left (λ rc s, <[id s := 0]> rc) l m !! j =
                   if bool_decide (j ∈ l) then Some 0 else m !! j).
  { induction l as [|s l IH]; intros m; simpl; [done|].
    rewrite IH, lookup_insert. unfold id.
    destruct (bool_decide_reflect (j ∈ l)) as [Hin|Hout].
    - by rewrite bool_decide_eq_true_2 by by constructor.
    - destruct (decide (s = j)) as [->|Hne].
      + by rewrite bool_decide_eq_true_2 by constructor.
      + rewrite bool_decide_eq_false_2; [done|].
        intros [?|?]%elem_of_cons; congruence. }
  rewrite G, lookup_empty.
  destruct (bool_decide_reflect (j ∈ stages)) as [Hin|Hout]; simpl.
  - destruct (own_key j) eqn:Hown.
    + by rewrite bool_decide_eq_true_2 by by apply elem_of_filter_own.
    + rewrite bool_decide_eq_false_2; [done|].
      intros [_ H]%elem_of_filter_own. unfold id in H. congruence.
  - rewrite bool_decide_eq_false_2; [done|]. by intros [? _]%elem_of_filter_own.
Qed.

Lemma progression_step_closed stages pc rc d :
  progression_step stages (pc, rc) d =
    (incr_all (advance_keys stages d) pc, incr_all (reach_keys stages d) rc).
Proof.
  unfold progression_step, advance_keys, reach_keys.
  rewrite fold_plain_incr_filter.
  rewrite <- (fold_incr_pairs (λ p, advanced (sorted_hist d) (fst p) (snd p))).
  done.
Qed.

Lemma progression_counts_closed stages deals :
  progression_counts stages deals =
    (incr_all (flat_map (advance_keys stages) deals) ∅,
     incr_all (flat_map (reach_keys stages) deals) (zero_counts stages)).
Proof.
  unfold progression_counts.
  assert (G : ∀ pc rc,
    fold_left (progression_step stages) deals (pc, rc) =
      (incr_all (flat_map (advance_keys stages) deals) pc,
       incr_all (flat_map (reach_keys stages) deals) rc)).
  { induction deals as [|d deals IH]; intros pc rc; cbn [fold_left flat_map];
      [done|].
    by rewrite progression_step_closed, IH, !incr_all_app. }
  apply G.
Qed.

Lemma progression_counts_reached stages deals s :
  snd (progression_counts stages deals) !! s =
    if bool_decide (s ∈ stages) && own_key s
    then Some (count_of s (flat_map (reach_keys stages) deals))
    else None.
Proof.
  rewrite progression_counts_closed.
  cbn [snd]. rewrite incr_all_lookup, zero_counts_lookup.
  destruct (bool_decide_reflect (s ∈ flat_map (reach_keys stages) deals))
    as [Hin|Hout].
  - apply list_elem_of_In, in_flat_map in Hin as (d & _ & Hd).
    apply list_elem_of_In, elem_of_filter_own in Hd as [Hs [_ Hown]%andb_true_iff].
    by rewrite (bool_decide_eq_true_2 (s ∈ stages) Hs), Hown.
  - rewrite count_of_zero by done. by destruct (_ && _).
Qed.

Section TallyFacts.
Context {num : Type} `{!JsNumber num} (parseFloat : string → num).

Lemma stats_step_closed wonStage (t : tally num) d :
  stats_step parseFloat wonStage t d =
    {| t_reached := incr_all (ever_of d) (t_reached t);
       t_wonAfter := incr_all (won_keys wonStage d) (t_wonAfter t);
       t_wonCount := (if counted_won wonStage d then 1 else 0) + t_wonCount t;
       t_wonSum := won_sum_from parseFloat wonStage (t_wonSum t) [d] |}.
Proof.
  unfold stats_step, won_sum_from, won_keys, positive_won, counted_won, ever_of,
    incr_all.
  destruct t as [r w c z]. cbn [t_reached t_wonAfter t_wonCount t_wonSum List.filter].
  destruct (default [] (d_dealstage d)) as [|h hist]; [done|].
  destruct (isWon wonStage d _); [|done].
  cbn [andb]. by destruct (ngt (amount_of parseFloat d) nzero).
Qed.

Lemma won_sum_from_cons wonStage acc d deals :
  won_sum_from parseFloat wonStage acc (d :: deals) =
    won_sum_from parseFloat wonStage (won_sum_from parseFloat wonStage acc [d]) deals.
Proof.
  unfold won_sum_from. cbn [List.filter].
  by destruct (positive_won parseFloat wonStage d).
Qed.

Lemma won_sum_from_fold wonStage acc deals :
  won_sum_from parseFloat wonStage acc deals =
    fold_left
      (λ acc d, if positive_won parseFloat wonStage d
                then nadd acc (amount_of parseFloat d) else acc)
      deals acc.
Proof.
  revert acc. induction deals as [|d deals IH]; intros acc; [done|].
  rewrite won_sum_from_cons, IH. cbn [fold_left]. f_equal.
  unfold won_sum_from. cbn [List.filter].
  by destruct (positive_won parseFloat wonStage d).
Qed.

Lemma stats_fold_closed wonStage deals (t : tally num) :
  fold_left (stats_step parseFloat wonStage) deals t =
    {| t_reached := incr_all (flat_map ever_of deals) (t_reached t);
       t_wonAfter := incr_all (flat_map (won_keys wonStage) deals) (t_wonAfter t);
       t_wonCount := length (List.filter (counted_won wonStage) deals) + t_wonCount t;
       t_wonSum := won_sum_from parseFloat wonStage (t_wonSum t) deals |}.
Proof.
  revert t. induction deals as [|d deals IH]; intros t; cbn [fold_left flat_map].
  - by destruct t.
  - rewrite IH, stats_step_closed. cbn [t_reached t_wonAfter t_wonCount t_wonSum].
    rewrite !incr_all_app, <- won_sum_from_cons. f_equal. simpl.
    destruct (counted_won wonStage d); simpl; lia.
Qed.

Lemma stats_tally_closed wonStage deals :
  stats_tally parseFloat wonStage deals =
    {| t_reached := incr_all (flat_map ever_of deals) ∅;
       t_wonAfter := incr_all (flat_map (won_keys wonStage) deals) ∅;
       t_wonCount := length (List.filter (counted_won wonStage) deals);
       t_wonSum := won_sum parseFloat wonStage deals |}.
Proof.
  unfold stats_tally. rewrite stats_fold_closed. simpl.
  by rewrite Nat.add_0_r.
Qed.
End TallyFacts.

(** ** Reached counts *)

Lemma count_of_filter (f : string → bool) s l :
  count_of s (List.filter f l) = if f s then count_of s l else 0.
Proof.
  induction l as [|x l IH]; simpl; [by destruct (f s)|].
  destruct (f x) eqn:Hx; rewrite ?count_of_cons, IH.
  - destruct (decide (x = s)) as [->|Hne]; [by rewrite Hx|].
    by destruct (f s).
  - destruct (decide (x = s)) as [->|Hne]; [by rewrite Hx|].
    by destruct (f s).
Qed.

Lemma count_of_ever_of d s :
  count_of s (ever_of d) = if bool_decide (s ∈ ever_of d) then 1 else 0.
Proof.
  unfold ever_of. rewrite count_of_new_Set.
  apply (f_equal (λ b : bool, if b then 1 else 0)), bool_decide_ext.
  by rewrite new_Set_elem.
Qed.

Lemma count_of_reach_keys stages d s :
  count_of s (reach_keys stages d) =
    if bool_decide (s ∈ ever_of d) && own_key s then count_of s stages else 0.
Proof. unfold reach_keys. by rewrite count_of_filter, has_reachedSet. Qed.

Section CountFacts.
Context {num : Type} `{!JsNumber num}.

Lemma computeProgression_reachedCounts stages deals :
  reachedCounts (computeProgression (num:=num) stages deals) =
    snd (progression_counts stages deals).
Proof.
  unfold computeProgression. destruct (progression_counts stages deals) as [pc rc].
  by destruct (fold_left _ _ _).
Qed.

Lemma reachedCounts_lookup stages deals s :
  reachedCounts (computeProgression (num:=num) stages deals) !! s =
    if bool_decide (s ∈ stages) && own_key s
    then Some (count_of s (flat_map (reach_keys stages) deals))
    else None.
Proof.
  rewrite computeProgression_reachedCounts. apply progression_counts_reached.
Qed.

Lemma reached_lookup parseFloat deals stages wonStage avgWonOverride s :
  default 0 (reached (computeStats (num:=num) parseFloat deals stages wonStage
                        avgWonOverride) !! s) =
    count_of s (flat_map ever_of deals).
Proof.
  unfold computeStats. cbn [reached]. rewrite stats_tally_closed. cbn [t_reached].
  by rewrite incr_all_count, lookup_empty.
Qed.

Lemma wonAfter_lookup parseFloat deals stages wonStage avgWonOverride s :
  default 0 (wonAfter (computeStats (num:=num) parseFloat deals stages wonStage
                         avgWonOverride) !! s) =
    count_of s (flat_map (won_keys wonStage) deals).
Proof.
  unfold computeStats. cbn [wonAfter]. rewrite stats_tally_closed. cbn [t_wonAfter].
  by rewrite incr_all_count, lookup_empty.
Qed.

(** On a duplicate-free stage list the two reached counts agree under every
    listed stage other than ["__proto__"]: [reachedCounts[s]] of
    [computeProgression] is present and equals [reached[s]] of
    [computeStats], an absent key read as 0. *)
Theorem reached_counts_agree
    (parseFloat : string → num) (stages : list string) (deals : list deal)
    (wonStage : option string) (avgWonOverride : option num) (s : string) :
  NoDup stages →
  s ∈ stages →
  s ≠ "__proto__" →
  reachedCounts (computeProgression (num:=num) stages deals) !! s =
    Some (default 0
            (reached (computeStats parseFloat deals stages wonStage avgWonOverride)
               !! s)).
Proof.
  intros Hnd Hs Hown%own_key_spec. rewrite reachedCounts_lookup, reached_lookup.
  rewrite (bool_decide_eq_true_2 (s ∈ stages) Hs), Hown. simpl.
  f_equal. apply count_of_flat_map_eq. intros d _.
  rewrite count_of_reach_keys, count_of_ever_of, Hown, andb_true_r.
  by rewrite (count_of_NoDup s stages Hnd Hs).
Qed.
End CountFacts.

(** C9: a duplicate-free stage list on which the two reached counts
    differ.  [reachedCounts] is a plain object: under the listed stage
    ["__proto__"] it never holds a counter, and read there it yields its
    prototype.  [reached], made by [Object.create(null)], counts under that
    name the deal that visited the stage. *)
Theorem reached_counts_differ_at_proto :
  NoDup proto_stages
  ∧ "__proto__" ∈ proto_stages
  ∧ reached (computeStats (num:=float) parseDecimal [proto_deal] proto_stages
               (Some "won") None) !! "__proto__" = Some 1
  ∧ reachedCounts (computeProgression (num:=float) proto_stages [proto_deal])
      !! "__proto__" = None
  ∧ plain_get_or_zero
      (reachedCounts (computeProgression (num:=float) proto_stages [proto_deal]))
      "__proto__" = Inherited
  ∧ plain_get_or_zero
      (reachedCounts (computeProgression (num:=float) proto_stages []))
      "__proto__" = Inherited.
Proof.
  split_and!; try reflexivity.
  - unfold proto_stages. apply NoDup_cons. split.
    + intros Hin. apply elem_of_cons in Hin as [Heq|Hin]; [discriminate Heq|].
      by apply elem_of_nil in Hin.
    + apply NoDup_singleton.
  - constructor.
Qed.

(** ** Progressed counts never exceed reached counts *)

Lemma edge_key_gt_free a a1 b b1 :
  gt_free a = true → gt_free b = true → edge_key a a1 = edge_key b b1 → a = b.
Proof.
  unfold edge_key. revert b. induction a as [|c a IH]; intros [|c' b]; simpl.
  - done.
  - intros _ Hb [= <- Heq]. destruct b as [|c'' b]; simpl in *; [done|].
    injection Heq as <- _. done.
  - intros Ha _ [= -> Heq]. destruct a as [|c'' a]; simpl in *; [done|].
    injection Heq as -> _. done.
  - intros [_ Ha]%andb_true_iff [_ Hb]%andb_true_iff [= -> Heq].
    f_equal. by apply IH.
Qed.

(** An edge key contains ["->"], which no inherited name does: under the
    keys of [progressedCounts] and [progression] a plain object holds own
    properties only. *)
Lemma includes_edge_key s s1 : includes (edge_key s s1) "->" = true.
Proof.
  unfold edge_key. induction s as [|c s IH]; [by destruct s1|].
  change (String c s +:+ "->" +:+ s1) with (String c (s +:+ "->" +:+ s1)).
  cbn [includes]. by rewrite IH, orb_true_r.
Qed.

Lemma edge_key_not_inherited s s1 : edge_key s s1 ∉ Object_prototype_members.
Proof.
  intros Hin. pose proof (includes_edge_key s s1) as Hinc.
  unfold Object_prototype_members in Hin.
  repeat (apply elem_of_cons in Hin as [Heq|Hin];
          [rewrite Heq in Hinc; vm_compute in Hinc; discriminate Hinc|]).
  by apply elem_of_nil in Hin.
Qed.

Lemma adjacent_elem stages s s1 :
  (s, s1) ∈ adjacent stages → s ∈ stages ∧ s1 ∈ stages.
Proof.
  induction stages as [|a stages IH]; simpl; [by intros ?%elem_of_nil|].
  destruct stages as [|b rest]; [by intros ?%elem_of_nil|].
  intros [[= -> ->]|Hin]%elem_of_cons.
  - split; [constructor | constructor; constructor].
  - destruct (IH Hin). split; by constructor.
Qed.

Lemma gt_free_distinct_keys stages :
  (∀ s, s ∈ stages → gt_free s = true) → distinct_keys stages.
Proof.
  intros H a a1 b b1 [Ha _]%adjacent_elem [Hb _]%adjacent_elem.
  apply edge_key_gt_free; by apply H.
Qed.






(** ** Maps filled by a loop *)

Lemma fold_insert_lookup {A V} (kf : A → string) (vf : A → V) xs
    (m : gmap string V) k v :
  fold_left (λ m x, <[kf x := vf x]> m) xs m !! k = Some v →
  m !! k = Some v ∨ ∃ x, x ∈ xs ∧ kf x = k ∧ vf x = v.
Proof.
  revert m. induction xs as [|x xs IH]; intros m; simpl; [by left|].
  intros [Hm|(y & Hy & Hk & Hv)]%IH.
  - rewrite lookup_insert in Hm. destruct (decide (kf x = k)) as [Hk|Hk].
    + injection Hm as <-. right. exists x. split; [constructor|done].
    + by left.
  - right. exists y. split; [by constructor|done].
Qed.


Section OutputFacts.
Context {num : Type} `{!JsNumber num}.

Lemma computeProgression_closed stages deals :
  computeProgression (num:=num) stages deals =
    {| progression :=
         fold_left
           (λ m p, <[edge_key (fst p) (snd p) :=
                       edge_for (fst (progression_counts stages deals))
                                (snd (progression_counts stages deals)) p]> m)
           (adjacent stages) ∅;
       stageLoss :=
         fold_left
           (λ m p, plain_set (fst p)
                     (nsub nunit
                        (p_advance
                           (edge_for (fst (progression_counts stages deals))
                                     (snd (progression_counts stages deals)) p)))
                     m)
           (adjacent stages) ∅;
       reachedCounts := snd (progression_counts stages deals) |}.
Proof.
  unfold computeProgression.
  destruct (progression_counts stages deals) as [pc rc]. cbn [fst snd].
  generalize (∅ : gmap string (edge num)) (∅ : gmap string num).
  induction (adjacent stages) as [|[s s1] ps IH]; intros a b; [done|].
  cbn [fold_left]. apply IH.
Qed.

Lemma computeStats_completion parseFloat deals stages wonStage avgWonOverride :
  completion (computeStats (num:=num) parseFloat deals stages wonStage avgWonOverride) =
    fold_left
      (λ m s, <[s := completion_for
                       (reached (computeStats parseFloat deals stages wonStage
                                   avgWonOverride))
                       (wonAfter (computeStats parseFloat deals stages wonStage
                                    avgWonOverride))
                       (avgWon (computeStats parseFloat deals stages wonStage
                                  avgWonOverride)) s]> m)
      (List.filter own_key stages) ∅.
Proof.
  rewrite <- (fold_plain_set id
    (completion_for
       (reached (computeStats parseFloat deals stages wonStage avgWonOverride))
       (wonAfter (computeStats parseFloat deals stages wonStage avgWonOverride))
       (avgWon (computeStats parseFloat deals stages wonStage avgWonOverride)))).
  done.
Qed.


Lemma completion_entry parseFloat deals stages wonStage avgWonOverride s c :
  completion (computeStats (num:=num) parseFloat deals stages wonStage
                avgWonOverride) !! s = Some c →
  s ∈ stages ∧
  c = completion_for
        (reached (computeStats parseFloat deals stages wonStage avgWonOverride))
        (wonAfter (computeStats parseFloat deals stages wonStage avgWonOverride))
        (avgWon (computeStats parseFloat deals stages wonStage avgWonOverride)) s.
Proof.
  rewrite computeStats_completion.
  intros [Hk|(x & Hin & -> & He)]%fold_insert_lookup.
  - by rewrite lookup_empty in Hk.
  - by apply elem_of_filter_own in Hin as [Hin _].
Qed.


Lemma p_win_is_ratio parseFloat deals stages wonStage avgWonOverride s c :
  completion (computeStats (num:=num) parseFloat deals stages wonStage
                avgWonOverride) !! s = Some c →
  p_win c = ratio_or_zero (c_wonAfter c) (c_reached c) ∧
  euro_value c =
    nmul (avgWon (computeStats parseFloat deals stages wonStage avgWonOverride))
         (p_win c).
Proof. by intros [_ ->]%completion_entry. Qed.


End OutputFacts.

(** ** Quotients of counters in exact arithmetic *)



(** ** Probabilities *)


(** Read through ["__proto__"] the counters yield their prototype. *)
Lemma proto_reading stages deals :
  plain_get_or_zero (snd (progression_counts stages deals)) "__proto__" =
    Inherited.
Proof.
  unfold plain_get_or_zero.
  by rewrite progression_counts_reached, andb_false_r.
Qed.



(** C4: two inputs on which a probability of the output leaves [0, 1].
    On the stage list [a->b, c, a, b->c] the pairs [(a->b, c)] and
    [(a, b->c)] share the key [a->b->c]: its counter collects the two deals
    that advanced from [a->b] to [c], the entry written last divides it by
    the one deal that reached [a], and [p_advance] is 2, in binary64 as in
    exact arithmetic.  On a stage list that starts with ["__proto__"] the
    counter read for that stage is the prototype of [reachedCounts], and
    [p_advance] is NaN. *)
Theorem p_advance_outside_unit_interval :
  st_progression
    (computeStats (num:=float) parseDecimal colliding_deals colliding_stages
       (Some "b->c") None) !! "a->b->c" =
    Some {| from_reached := Counter 1; progressed := 2; p_advance := 2%float |}
  ∧ (∃ e, st_progression
            (computeStats (num:=Q) parseDecimal colliding_deals colliding_stages
               (Some "b->c") None) !! "a->b->c" = Some e
          ∧ from_reached e = Counter 1 ∧ progressed e = 2
          ∧ Qlt 1 (p_advance e))
  ∧ (∃ e, st_progression
            (computeStats (num:=float) parseDecimal [proto_deal] proto_stages
               (Some "won") None) !! "__proto__->won" = Some e
          ∧ from_reached e = Inherited ∧ progressed e = 1
          ∧ PrimFloat.is_nan (p_advance e) = true).
Proof.
  split_and!.
  - vm_compute. reflexivity.
  - eexists. split; [vm_compute; reflexivity|]. by vm_compute.
  - eexists. split; [vm_compute; reflexivity|]. by vm_compute.
Qed.

(** ** Progression along an adjacent pair *)

Example sorted_hist_shuffled :
  sorted_hist shuffled =
    [("inbox", 10%Z); ("sequenced", 20%Z); ("inbox", 20%Z); ("sequenced", 40%Z)].
Proof. reflexivity. Qed.

Example advanced_shuffled :
  advanced (sorted_hist shuffled) "inbox" "sequenced" = true ∧
  advanced (sorted_hist shuffled) "sequenced" "inbox" = false.
Proof. split; reflexivity. Qed.

(** C3: a deal that the output counts as progressed along a pair it did
    not advance along.  On the stage list [a->b, c, a, b->c] the pairs
    [(a->b, c)] and [(a, b->c)] share the key [a->b->c].  The history of the
    deal shows [a->b] and then [c], and neither [a] nor [b->c]: the test of
    the loop fails for the pair [(a, b->c)], and the edge the output holds
    for that pair reports one deal progressed. *)
Theorem progressed_counted_for_unreached_pair :
  ("a", "b->c") ∈ adjacent colliding_stages
  ∧ mentions "a" collider = false
  ∧ mentions "b->c" collider = false
  ∧ advanced (sorted_hist collider) "a" "b->c" = false
  ∧ progression (computeProgression (num:=float) colliding_stages [collider])
      !! edge_key "a" "b->c" =
    Some {| from_reached := Counter 0; progressed := 1; p_advance := 0%float |}.
Proof.
  split_and!; try reflexivity.
  apply list_elem_of_In. simpl. auto.
Qed.

(** ** Won deals *)

Lemma is_true_string_spec v : is_true_string v = true ↔ v = JsString "true".
Proof.
  destruct v as [| |b|s]; simpl; try (split; done).
  rewrite String.eqb_eq. split; [by intros -> | by intros [= ->]].
Qed.

Lemma counted_won_spec wonStage d :
  counted_won wonStage d = true ↔
    default [] (d_dealstage d) ≠ [] ∧
    (d_hs_is_closed_won d = JsString "true" ∨
     ∃ w, wonStage = Some w ∧ w ∈ map h_value (default [] (d_dealstage d))).
Proof.
  unfold counted_won, ever_of, isWon.
  destruct (default [] (d_dealstage d)) as [|h hist] eqn:Hh.
  - split; [done | by intros [? _]].
  - rewrite orb_true_iff, is_true_string_spec. split.
    + intros H. split; [done|]. destruct H as [?|H]; [by left|right].
      destruct wonStage as [w|]; [|done]. exists w. split; [done|].
      unfold has in H. apply bool_decide_eq_true in H.
      by rewrite new_Set_elem in H.
    + intros [_ [?|(w & -> & Hw)]]; [by left|right].
      unfold has. apply bool_decide_eq_true. by rewrite new_Set_elem.
Qed.

Section WonFacts.
Context {num : Type} `{!JsNumber num} (parseFloat : string → num).


Lemma count_of_won_keys_deals wonStage deals s :
  count_of s (flat_map (won_keys wonStage) deals) =
    length (List.filter
              (λ d, counted_won wonStage d && bool_decide (s ∈ ever_of d)) deals).
Proof.
  induction deals as [|d deals IH]; [done|].
  cbn [flat_map List.filter]. rewrite count_of_app, IH. unfold won_keys.
  destruct (counted_won wonStage d); cbn [andb].
  - rewrite count_of_ever_of. by destruct (bool_decide (s ∈ ever_of d)).
  - done.
Qed.

(** C1, as amended: without an override, [avgWon] is the sum of the amounts
    of the won deals with a positive amount divided by the number of all won
    deals, whatever their amount, and 0 when no deal is won; a won deal of
    zero or blank amount stays in that denominator and in [wonAfter]. *)
Theorem avgWon_over_all_won_deals
    (deals : list deal) (stages : list string) (wonStage : option string) :
  avgWon (computeStats parseFloat deals stages wonStage None) =
    average
      (fold_left nadd
         (map (amount_of parseFloat)
            (List.filter (positive_won parseFloat wonStage) deals))
         nzero)
      (length (List.filter (counted_won wonStage) deals))
  ∧ (List.filter (counted_won wonStage) deals = [] →
     avgWon (computeStats parseFloat deals stages wonStage None) = nzero)
  ∧ (∀ s,
       default 0 (wonAfter (computeStats parseFloat deals stages wonStage None) !! s) =
         length (List.filter
                   (λ d, counted_won wonStage d && bool_decide (s ∈ ever_of d))
                   deals)).
Proof.
  assert (E : avgWon (computeStats parseFloat deals stages wonStage None) =
              average (won_sum parseFloat wonStage deals)
                      (length (List.filter (counted_won wonStage) deals))).
  { unfold computeStats. cbn [avgWon]. by rewrite stats_tally_closed. }
  split_and!.
  - exact E.
  - intros Hnone. rewrite E, Hnone. done.
  - intros s. by rewrite wonAfter_lookup, count_of_won_keys_deals.
Qed.
End WonFacts.


Example avgWon_of_100_and_zero :
  avgWon (computeStats (num:=float) parseDecimal [won_100; won_zero] funnel
            (Some "closedwon") None) = 50%float
  ∧ avgWon_positive_only (num:=float) parseDecimal (Some "closedwon")
      [won_100; won_zero] = 100%float
  ∧ avgWon (computeStats (num:=float) parseDecimal [won_100; won_blank] funnel
              (Some "closedwon") None) = 50%float
  ∧ wonAfter (computeStats (num:=float) parseDecimal [won_100; won_zero] funnel
                (Some "closedwon") None) !! "inbox" = Some 2.
Proof. split_and!; vm_compute; reflexivity. Qed.

(** C1, as stated, fails on a won deal of amount 100 and a won deal of amount
    0: the code returns 100 / 2, the average over the won deals with a
    positive amount is 100 / 1. *)
Lemma avgWon_counts_zero_amount_won_deals :
  avgWon (computeStats (num:=float) parseDecimal [won_100; won_zero] funnel
            (Some "closedwon") None) ≠
  avgWon_positive_only (num:=float) parseDecimal (Some "closedwon")
    [won_100; won_zero].
Proof.
  intros H.
  apply (f_equal (λ x, PrimFloat.eqb x 50%float)) in H.
  vm_compute in H. discriminate H.
Qed.

(** ** Order of the deals *)

Lemma filter_length_perm {A} (f : A → bool) l l' :
  Permutation l l' → length (List.filter f l) = length (List.filter f l').
Proof.
  induction 1 as [|x l l' _ IH|x y l|l l' l'' _ IH1 _ IH2]; simpl.
  - done.
  - destruct (f x); simpl; by rewrite IH.
  - by destruct (f x), (f y).
  - by rewrite IH1.
Qed.

Lemma fold_left_perm {A B} (f : B → A → B) l l' :
  (∀ b x y, f (f b x) y = f (f b y) x) →
  Permutation l l' → ∀ b, fold_left f l b = fold_left f l' b.
Proof.
  intros Hswap. induction 1 as [|x l l' _ IH|x y l|l l' l'' _ IH1 _ IH2];
    intros b; simpl.
  - done.
  - apply IH.
  - by rewrite Hswap.
  - by rewrite IH1.
Qed.

Lemma fold_insert_id_lookup {V} (g : string → V) stages k :
  fold_left (λ m s, <[s := g s]> m) stages (∅ : gmap string V) !! k =
    if bool_decide (k ∈ stages) then Some (g k) else None.
Proof.
  assert (G : ∀ m : gmap string V,
            fold_left (λ m s, <[s := g s]> m) stages m !! k =
              if bool_decide (k ∈ stages) then Some (g k) else m !! k).
  { induction stages as [|s stages IH]; intros m; simpl; [done|].
    rewrite IH, lookup_insert.
    destruct (bool_decide_reflect (k ∈ stages)) as [Hin|Hout].
    - by rewrite bool_decide_eq_true_2 by by constructor.
    - destruct (decide (s = k)) as [->|Hne].
      + by rewrite bool_decide_eq_true_2 by constructor.
      + rewrite bool_decide_eq_false_2; [done|].
        intros [?|?]%elem_of_cons; congruence. }
  by rewrite G, lookup_empty.
Qed.

Lemma progression_counts_perm stages deals deals' :
  Permutation deals deals' →
  progression_counts stages deals = progression_counts stages deals'.
Proof.
  intros Hp. rewrite !progression_counts_closed. f_equal.
  - by apply incr_all_perm, Permutation_flat_map.
  - by apply incr_all_perm, Permutation_flat_map.
Qed.

Section OrderFacts.
Context {num : Type} `{!JsNumber num} (parseFloat : string → num).

Lemma computeProgression_perm stages deals deals' :
  Permutation deals deals' →
  computeProgression (num:=num) stages deals = computeProgression stages deals'.
Proof.
  intros Hp. unfold computeProgression.
  by rewrite (progression_counts_perm stages deals deals' Hp).
Qed.

Lemma computeStats_closed deals stages wonStage avgWonOverride :
  computeStats parseFloat deals stages wonStage avgWonOverride =
    {| avgWon := match avgWonOverride with
                 | Some x => x
                 | None => average (won_sum parseFloat wonStage deals)
                             (length (List.filter (counted_won wonStage) deals))
                 end;
       reached := incr_all (flat_map ever_of deals) ∅;
       wonAfter := incr_all (flat_map (won_keys wonStage) deals) ∅;
       completion :=
         fold_left
           (λ m s,
              <[s := completion_for
                       (incr_all (flat_map ever_of deals) ∅)
                       (incr_all (flat_map (won_keys wonStage) deals) ∅)
                       (match avgWonOverride with
                        | Some x => x
                        | None => average (won_sum parseFloat wonStage deals)
                                    (length (List.filter (counted_won wonStage) deals))
                        end) s]> m)
           (List.filter own_key stages) ∅;
       st_progression := progression (computeProgression stages deals);
       st_stageLoss := stageLoss (computeProgression stages deals) |}.
Proof.
  unfold computeStats. rewrite stats_tally_closed.
  cbn [t_reached t_wonAfter t_wonSum t_wonCount]. f_equal.
  apply (fold_plain_set id (completion_for _ _ _)).
Qed.

Lemma won_sum_perm wonStage deals deals' :
  (∀ a x y : num, nadd (nadd a x) y = nadd (nadd a y) x) →
  Permutation deals deals' →
  won_sum parseFloat wonStage deals = won_sum parseFloat wonStage deals'.
Proof.
  intros Hswap Hp. unfold won_sum. rewrite !won_sum_from_fold.
  apply fold_left_perm; [|done]. intros b x y.
  destruct (positive_won parseFloat wonStage x),
           (positive_won parseFloat wonStage y); [apply Hswap|done..].
Qed.

(** C8, as amended: permuting the deals leaves [reached], [wonAfter],
    [progression], [stageLoss] and the counts and [p_win] of every
    completion record unchanged; the whole output is unchanged when the two
    averages agree, which holds when an override is supplied and when the
    additions of the amounts can be reordered. *)
Theorem computeStats_permutation
    (stages : list string) (wonStage : option string)
    (avgWonOverride : option num) (deals deals' : list deal) :
  Permutation deals deals' →
  reached (computeStats parseFloat deals stages wonStage avgWonOverride) =
    reached (computeStats parseFloat deals' stages wonStage avgWonOverride)
  ∧ wonAfter (computeStats parseFloat deals stages wonStage avgWonOverride) =
      wonAfter (computeStats parseFloat deals' stages wonStage avgWonOverride)
  ∧ st_progression (computeStats parseFloat deals stages wonStage avgWonOverride) =
      st_progression (computeStats parseFloat deals' stages wonStage avgWonOverride)
  ∧ st_stageLoss (computeStats parseFloat deals stages wonStage avgWonOverride) =
      st_stageLoss (computeStats parseFloat deals' stages wonStage avgWonOverride)
  ∧ (∀ s,
       (λ c, (c_reached c, c_wonAfter c, p_win c)) <$>
         completion (computeStats parseFloat deals stages wonStage avgWonOverride)
           !! s =
       (λ c, (c_reached c, c_wonAfter c, p_win c)) <$>
         completion (computeStats parseFloat deals' stages wonStage avgWonOverride)
           !! s)
  ∧ (avgWon (computeStats parseFloat deals stages wonStage avgWonOverride) =
       avgWon (computeStats parseFloat deals' stages wonStage avgWonOverride) →
     computeStats parseFloat deals stages wonStage avgWonOverride =
       computeStats parseFloat deals' stages wonStage avgWonOverride)
  ∧ (is_Some avgWonOverride →
     computeStats parseFloat deals stages wonStage avgWonOverride =
       computeStats parseFloat deals' stages wonStage avgWonOverride)
  ∧ ((∀ a x y : num, nadd (nadd a x) y = nadd (nadd a y) x) →
     computeStats parseFloat deals stages wonStage avgWonOverride =
       computeStats parseFloat deals' stages wonStage avgWonOverride).
Proof.
  intros Hp.
  assert (HR : incr_all (flat_map ever_of deals) ∅ =
               incr_all (flat_map ever_of deals') ∅)
    by by apply incr_all_perm, Permutation_flat_map.
  assert (HW : incr_all (flat_map (won_keys wonStage) deals) ∅ =
               incr_all (flat_map (won_keys wonStage) deals') ∅)
    by by apply incr_all_perm, Permutation_flat_map.
  assert (HC : length (List.filter (counted_won wonStage) deals) =
               length (List.filter (counted_won wonStage) deals'))
    by by apply filter_length_perm.
  assert (HP := computeProgression_perm stages deals deals' Hp).
  rewrite !computeStats_closed.
  cbn [avgWon reached wonAfter completion st_progression st_stageLoss].
  rewrite HR, HW, HC, HP.
  assert (Hsame : ∀ A A' : num, A = A' →
    {| avgWon := A;
       reached := incr_all (flat_map ever_of deals') ∅;
       wonAfter := incr_all (flat_map (won_keys wonStage) deals') ∅;
       completion :=
         fold_left
           (λ m s,
              <[s := completion_for
                       (incr_all (flat_map ever_of deals') ∅)
                       (incr_all (flat_map (won_keys wonStage) deals') ∅) A s]> m)
           (List.filter own_key stages) ∅;
       st_progression := progression (computeProgression stages deals');
       st_stageLoss := stageLoss (computeProgression stages deals') |} =
    {| avgWon := A';
       reached := incr_all (flat_map ever_of deals') ∅;
       wonAfter := incr_all (flat_map (won_keys wonStage) deals') ∅;
       completion :=
         fold_left
           (λ m s,
              <[s := completion_for
                       (incr_all (flat_map ever_of deals') ∅)
                       (incr_all (flat_map (won_keys wonStage) deals') ∅) A' s]> m)
           (List.filter own_key stages) ∅;
       st_progression := progression (computeProgression stages deals');
       st_stageLoss := stageLoss (computeProgression stages deals') |})
    by by intros A A' ->.
  split_and!; try done.
  - intros s. rewrite !fold_insert_id_lookup.
    by destruct (bool_decide (s ∈ List.filter own_key stages)).
  - apply Hsame.
  - intros [x ->]. done.
  - intros Hswap. apply Hsame. destruct avgWonOverride; [done|].
    by rewrite (won_sum_perm wonStage deals deals' Hswap Hp).
Qed.
End OrderFacts.

(** In exact arithmetic additions can be reordered. *)
Lemma exact_add_swap (a x y : Q) :
  nadd (nadd a x) y = nadd (nadd a y) x.
Proof.
  destruct a as [an ad], x as [xn xd], y as [yn yd].
  cbn [nadd exact_number]. unfold Qplus. cbn [Qnum Qden]. f_equal.
  - rewrite !Pos2Z.inj_mul. ring.
  - rewrite <- !Pos.mul_assoc. f_equal. apply Pos.mul_comm.
Qed.

Lemma computeStats_permutation_witness :
  Permutation [walker; idler] [idler; walker]
  ∧ computeStats (num:=Q) parseDecimal [walker; idler] funnel
      (Some "closedwon") None =
    computeStats (num:=Q) parseDecimal [idler; walker] funnel
      (Some "closedwon") None.
Proof.
  split; [apply perm_swap|].
  destruct (computeStats_permutation (num:=Q) parseDecimal funnel
              (Some "closedwon") None [walker; idler] [idler; walker]
              (perm_swap idler walker []))
    as (_ & _ & _ & _ & _ & _ & _ & Hexact).
  exact (Hexact exact_add_swap).
Defined.

(** C8, as stated, fails in binary64 arithmetic: the deals of [tenths] give
    the average 0.20000000000000004, the same deals in reverse order give
    0.19999999999999998. *)
Lemma avgWon_changes_with_deal_order :
  ¬ (∀ deals',
       Permutation tenths deals' →
       computeStats (num:=float) parseDecimal tenths funnel (Some "closedwon") None =
       computeStats (num:=float) parseDecimal deals' funnel (Some "closedwon") None).
Proof.
  intros H. specialize (H (rev tenths) (Permutation_rev tenths)).
  apply (f_equal
           (λ r, PrimFloat.eqb (avgWon r)
                   (avgWon (computeStats (num:=float) parseDecimal tenths funnel
                              (Some "closedwon") None)))) in H.
  vm_compute in H. discriminate H.
Qed.

(** ** Instances on the sample data *)

(** An empty cohort: every completion record is zero and so is the average. *)
Example empty_cohort :
  avgWon (computeStats (num:=float) parseDecimal [] funnel (Some "closedwon") None)
    = 0%float
  ∧ completion (computeStats (num:=float) parseDecimal [] funnel
                  (Some "closedwon") None) !! "inbox" =
      Some {| c_reached := 0; c_wonAfter := 0; p_win := 0%float;
              euro_value := 0%float |}.
Proof. split; vm_compute; reflexivity. Qed.

(** A single deal that walks through the funnel and wins 1000. *)
Example single_winner :
  avgWon (computeStats (num:=float) parseDecimal [walker] funnel
            (Some "closedwon") None) = 1000%float
  ∧ completion (computeStats (num:=float) parseDecimal [walker] funnel
                  (Some "closedwon") None) !! "inbox" =
      Some {| c_reached := 1; c_wonAfter := 1; p_win := 1%float;
              euro_value := 1000%float |}
  ∧ st_progression (computeStats (num:=float) parseDecimal [walker] funnel
                      (Some "closedwon") None) !! "inbox->sequenced" =
      Some {| from_reached := Counter 1; progressed := 1; p_advance := 1%float |}.
Proof. split_and!; vm_compute; reflexivity. Qed.

(** A deal that reaches the first stage only. *)
Example never_advances :
  st_progression (computeStats (num:=float) parseDecimal [idler] funnel
                    (Some "closedwon") None) !! "inbox->sequenced" =
    Some {| from_reached := Counter 1; progressed := 0; p_advance := 0%float |}
  ∧ st_stageLoss (computeStats (num:=float) parseDecimal [idler] funnel
                    (Some "closedwon") None) !! "inbox" = Some 1%float.
Proof. split; vm_compute; reflexivity. Qed.

(** An override replaces the average even when no deal is won. *)
Example override_without_wins :
  avgWon (computeStats (num:=float) parseDecimal [idler] funnel
            (Some "closedwon") (Some 500%float)) = 500%float.
Proof. reflexivity. Qed.


Lemma resolveStages_closedwon_last_witness :
  select_pipeline (default [] (cat_results sample_catalog)) None =
    Some sample_pipeline
  ∧ resolveStages sample_catalog None FRIENDLY_ORDER DEFAULT_ALIASES =
      Returns {| r_stages := ["10"; "11"; "9"]; r_wonStage := Some "9" |}
  ∧ ∃ mapped,
      mapped_from (stageList_of sample_pipeline) DEFAULT_ALIASES FRIENDLY_ORDER
        [] = Returns mapped
      ∧ ["10"; "11"; "9"] =
          List.filter (λ s, negb (String.eqb s "9")) mapped ++ ["9"].
Proof.
  split; [reflexivity|]. split; [reflexivity|].
  destruct (resolveStages_closedwon_last sample_catalog None FRIENDLY_ORDER
              DEFAULT_ALIASES sample_pipeline
              {| r_stages := ["10"; "11"; "9"]; r_wonStage := Some "9" |}
              eq_refl eq_refl) as (mapped & Hmapped & Hwon & _).
  exists mapped. split; [exact Hmapped|].
  destruct (Hwon "9" eq_refl) as [Hstages _]; [discriminate|exact Hstages].
Defined.



Lemma dealsCohort_exactly_in_window_witness :
  fetched sample_store None [page_one; page_two]
  ∧ ∀ fuel out,
      dealsCohort fuel sample_store None (Some 100%Z) (Some 200%Z) (Some "default")
        = Some out →
      out = [on_start; on_end].
Proof.
  assert (Hf : fetched sample_store None [page_one; page_two]).
  { apply fetched_next; [reflexivity|]. apply fetched_last. reflexivity. }
  split; [exact Hf|]. intros fuel out Hout.
  destruct (dealsCohort_exactly_in_window sample_store [page_one; page_two]
              (Some 100%Z) (Some 200%Z) (Some "default") Hf) as [_ Hall].
  destruct (Hall fuel out Hout) as [-> _]. reflexivity.
Defined.

Lemma reached_counts_agree_witness :
  NoDup funnel ∧ "inbox" ∈ funnel ∧ "inbox" ≠ "__proto__"
  ∧ reachedCounts (computeProgression (num:=float) funnel [walker; idler])
      !! "inbox" =
    Some (default 0
            (reached (computeStats (num:=float) parseDecimal [walker; idler] funnel
                        (Some "closedwon") None) !! "inbox")).
Proof.
  assert (Hnd : NoDup funnel).
  { unfold funnel. repeat (apply NoDup_cons; split;
      [intros Hin; repeat (apply elem_of_cons in Hin as [Heq|Hin];
                           [discriminate Heq|]);
       by apply elem_of_nil in Hin|]).
    apply NoDup_nil_2. }
  assert (Hin : "inbox" ∈ funnel) by constructor.
  assert (Hown : "inbox" ≠ "__proto__") by discriminate.
  split_and!; [exact Hnd|exact Hin|exact Hown|].
  apply (reached_counts_agree (num:=float) parseDecimal funnel [walker; idler]
           (Some "closedwon") None "inbox" Hnd Hin Hown).
Defined.

(** * Further properties *)

(** ** The resolved funnel *)

Lemma findIdByAliases_some stageList aliases id :
  findIdByAliases stageList aliases = Some id →
  ∃ a s, a ∈ aliases ∧ s ∈ stageList ∧ fst s = id ∧
         includes (snd s) (toLowerCase a) = true.
Proof.
  induction aliases as [|a rest IH]; simpl; [done|].
  destruct (List.find (λ s, includes (snd s) (toLowerCase a)) stageList)
    as [hit|] eqn:Hfind.
  - intros [= <-]. apply find_some in Hfind as [Hin Hinc].
    exists a, hit. split_and!; [constructor|by apply list_elem_of_In|done..].
  - intros (a' & s & Ha & Hs)%IH. exists a', s. split; [by constructor|done].
Qed.

Lemma stageList_of_elem pipe s :
  s ∈ stageList_of pipe →
  ∃ st, st ∈ default [] (pd_stages pipe) ∧ sd_id st = fst s.
Proof.
  unfold stageList_of. intros (st & -> & Hst)%list_elem_of_fmap. by exists st.
Qed.

Lemma mapped_of_snoc stageList keys key aliasMap :
  mapped_of stageList (keys ++ [key]) aliasMap =
    mapped_of stageList keys aliasMap ++
    match findIdByAliases stageList (aliases_of aliasMap key) with
    | Some i => if truthy_string i then [i] else []
    | None => []
    end.
Proof.
  unfold mapped_of. rewrite fold_left_app. simpl.
  destruct (findIdByAliases stageList (aliases_of aliasMap key)) as [i|];
    [|by rewrite app_nil_r].
  destruct (truthy_string i); [done|by rewrite app_nil_r].
Qed.

Lemma mapped_of_elem stageList friendlyOrder aliasMap s :
  s ∈ mapped_of stageList friendlyOrder aliasMap ↔
    s ≠ "" ∧ ∃ key, key ∈ friendlyOrder ∧
      findIdByAliases stageList (aliases_of aliasMap key) = Some s.
Proof.
  induction friendlyOrder as [|key keys IH] using rev_ind.
  - split; [by intros ?%elem_of_nil|]. by intros [_ (? & ?%elem_of_nil & _)].
  - rewrite mapped_of_snoc, elem_of_app, IH. split.
    + intros [[Hne (k & Hk & Hf)]|Hin].
      * split; [done|]. exists k. split; [|done]. apply elem_of_app. by left.
      * destruct (findIdByAliases stageList (aliases_of aliasMap key)) as [i|]
          eqn:Hf; [|by apply elem_of_nil in Hin].
        destruct (truthy_string i) eqn:Hi; [|by apply elem_of_nil in Hin].
        apply list_elem_of_singleton in Hin as ->.
        split; [by apply truthy_string_spec|]. exists key. split; [|done].
        apply elem_of_app. right. constructor.
    + intros [Hne (k & [Hk|Hk]%elem_of_app & Hf)].
      * left. split; [done|by exists k].
      * apply list_elem_of_singleton in Hk as ->. right. rewrite Hf.
        apply truthy_string_spec in Hne as ->. constructor.
Qed.

Lemma mapped_of_length stageList friendlyOrder aliasMap :
  length (mapped_of stageList friendlyOrder aliasMap) ≤ length friendlyOrder.
Proof.
  induction friendlyOrder as [|key keys IH] using rev_ind; [done|].
  rewrite mapped_of_snoc, !length_app. simpl.
  destruct (findIdByAliases stageList (aliases_of aliasMap key)) as [i|];
    [destruct (truthy_string i)|]; simpl; lia.
Qed.

Lemma filter_length_lt {A} (f : A → bool) l x :
  x ∈ l → f x = false → length (List.filter f l) < length l.
Proof.
  induction 1 as [x l|x y l _ IH]; intros Hx; simpl.
  - rewrite Hx. pose proof (List.filter_length_le f l). lia.
  - specialize (IH Hx). destruct (f y); simpl; lia.
Qed.

(** [wonStage] is always the last element of the returned stage list; when
    it comes from the closedwon aliases it occurs nowhere else in the list. *)
Theorem resolveStages_wonStage_closes_funnel
    (res : catalog) (pipelineId : option string)
    (friendlyOrder : list string) (aliasMap : gmap string (list string))
    (r : resolved) :
  resolveStages res pipelineId friendlyOrder aliasMap = Returns r →
  r_wonStage r = last (r_stages r)
  ∧ ∀ pipe id,
      select_pipeline (default [] (cat_results res)) pipelineId = Some pipe →
      findIdByAliases (stageList_of pipe) (aliases_of aliasMap "closedwon") = Some id →
      id ≠ "" →
      count_of id (r_stages r) = 1.
Proof.
  destruct (select_pipeline (default [] (cat_results res)) pipelineId)
    as [pipe|] eqn:Hsel; [|by unfold resolveStages; rewrite Hsel].
  rewrite (resolveStages_found _ _ _ _ pipe Hsel).
  destruct (forallb _ friendlyOrder); [|done].
  cbv zeta. intros [= <-]. cbn [r_wonStage r_stages]. split.
  - destruct (findIdByAliases (stageList_of pipe) (aliases_of aliasMap "closedwon"))
      as [id|]; [|done].
    simpl. destruct (truthy_string id); [|done]. simpl. by rewrite last_snoc.
  - intros pipe' id [= <-] -> Hid. simpl.
    apply truthy_string_spec in Hid as Ht. rewrite Ht, without_id. simpl.
    rewrite count_of_app, count_of_filter, String.eqb_refl. simpl.
    rewrite count_of_cons, decide_True by done. done.
Qed.

Lemma resolveStages_wonStage_closes_funnel_witness :
  resolveStages sample_catalog None FRIENDLY_ORDER DEFAULT_ALIASES =
    Returns {| r_stages := ["10"; "11"; "9"]; r_wonStage := Some "9" |}
  ∧ Some "9" = last ["10"; "11"; "9"].
Proof.
  split; [reflexivity|].
  destruct (resolveStages_wonStage_closes_funnel sample_catalog None FRIENDLY_ORDER
              DEFAULT_ALIASES
              {| r_stages := ["10"; "11"; "9"]; r_wonStage := Some "9" |}
              eq_refl) as [Hlast _].
  exact Hlast.
Defined.

(** Every returned stage id, and [wonStage] too, is a non-empty id of a
    stage of the selected pipeline; and the list is no longer than the
    canonical order plus one, no longer than the canonical order when this
    lists closedwon. *)
Theorem resolveStages_ids_of_pipeline
    (res : catalog) (pipelineId : option string)
    (friendlyOrder : list string) (aliasMap : gmap string (list string))
    (pipe : pipeline_def) (r : resolved) :
  select_pipeline (default [] (cat_results res)) pipelineId = Some pipe →
  resolveStages res pipelineId friendlyOrder aliasMap = Returns r →
  (∀ s, s ∈ r_stages r ∨ r_wonStage r = Some s →
        s ≠ "" ∧ ∃ st, st ∈ default [] (pd_stages pipe) ∧ sd_id st = s)
  ∧ length (r_stages r) ≤ S (length friendlyOrder)
  ∧ ("closedwon" ∈ friendlyOrder → length (r_stages r) ≤ length friendlyOrder).
Proof.
  intros Hsel Hres.
  assert (Hmapped : ∀ s, s ∈ mapped_of (stageList_of pipe) friendlyOrder aliasMap →
            s ≠ "" ∧ ∃ st, st ∈ default [] (pd_stages pipe) ∧ sd_id st = s).
  { intros s [Hne (key & _ & Hf)]%mapped_of_elem. split; [done|].
    apply findIdByAliases_some in Hf as (a & p & _ & Hp & <- & _).
    by apply stageList_of_elem. }
  assert (Hlen := mapped_of_length (stageList_of pipe) friendlyOrder aliasMap).
  rewrite (resolveStages_found _ _ _ _ pipe Hsel) in Hres.
  destruct (forallb _ friendlyOrder); [|done].
  cbv zeta in Hres. injection Hres as <-.
  cbn [r_stages r_wonStage].
  destruct (findIdByAliases (stageList_of pipe) (aliases_of aliasMap "closedwon"))
    as [id|] eqn:Hcw.
  - simpl. destruct (truthy_string id) eqn:Hid.
    + assert (Hidok : id ≠ "" ∧ ∃ st, st ∈ default [] (pd_stages pipe) ∧ sd_id st = id).
      { split; [by apply truthy_string_spec|].
        apply findIdByAliases_some in Hcw as (a & p & _ & Hp & <- & _).
        by apply stageList_of_elem. }
      assert (Hstages : ∀ s, s ∈ without (Some id)
                  (mapped_of (stageList_of pipe) friendlyOrder aliasMap) ++ [id] →
                s ≠ "" ∧ ∃ st, st ∈ default [] (pd_stages pipe) ∧ sd_id st = s).
      { intros s [Hs|Hs]%elem_of_app.
        - unfold without in Hs. apply list_elem_of_In, filter_In in Hs as [Hs _].
          by apply Hmapped, list_elem_of_In.
        - by apply list_elem_of_singleton in Hs as ->. }
      split_and!.
      * intros s [Hs|[= <-]]; [by apply Hstages|done].
      * rewrite length_app. simpl. unfold without.
        pose proof (List.filter_length_le
                      (λ s, negb (bool_decide (Some s = Some id)))
                      (mapped_of (stageList_of pipe) friendlyOrder aliasMap)).
        lia.
      * intros Hkey. rewrite length_app. simpl. unfold without.
        assert (H : id ∈ mapped_of (stageList_of pipe) friendlyOrder aliasMap).
        { apply mapped_of_elem. split; [by apply truthy_string_spec|].
          by exists "closedwon". }
        pose proof (filter_length_lt
                      (λ s, negb (bool_decide (Some s = Some id)))
                      (mapped_of (stageList_of pipe) friendlyOrder aliasMap) id)
          as Hlt.
        assert (Hf : negb (bool_decide (Some id = Some id)) = false)
          by by rewrite bool_decide_eq_true_2.
        specialize (Hlt H Hf). lia.
    + rewrite without_absent.
      * split_and!; [|lia..].
        intros s [Hs|Hs]; [by apply Hmapped|].
        apply Hmapped. by apply last_Some_elem_of.
      * intros s [= <-] Hin. apply mapped_of_truthy in Hin.
        by apply truthy_string_spec in Hin; congruence.
  - simpl. rewrite without_absent by done.
    split_and!; [|lia..].
    intros s [Hs|Hs]; [by apply Hmapped|].
    apply Hmapped. by apply last_Some_elem_of.
Qed.

Lemma resolveStages_ids_of_pipeline_witness :
  select_pipeline (default [] (cat_results sample_catalog)) None =
    Some sample_pipeline
  ∧ ∀ s, s ∈ ["10"; "11"; "9"] →
         s ≠ "" ∧ ∃ st, st ∈ default [] (pd_stages sample_pipeline) ∧ sd_id st = s.
Proof.
  split; [reflexivity|]. intros s Hs.
  destruct (resolveStages_ids_of_pipeline sample_catalog None FRIENDLY_ORDER
              DEFAULT_ALIASES sample_pipeline
              {| r_stages := ["10"; "11"; "9"]; r_wonStage := Some "9" |}
              eq_refl eq_refl) as [Hids _].
  apply Hids. by left.
Defined.

(** ** Keys that are no keys *)

(** With a pipeline found, [resolveStages] throws a [TypeError] exactly when
    some key of the canonical order has no own entry in the alias map and
    names a member that every plain object inherits: what the alias map
    yields under that key is truthy and is no list.  It throws nothing else
    than this and the configuration error, and with the default order and
    aliases it never throws a [TypeError]. *)
Theorem resolveStages_TypeError_iff
    (res : catalog) (pipelineId : option string)
    (friendlyOrder : list string) (aliasMap : gmap string (list string)) :
  (resolveStages res pipelineId friendlyOrder aliasMap = TypeError ↔
     is_Some (select_pipeline (default [] (cat_results res)) pipelineId)
     ∧ ∃ key, key ∈ friendlyOrder ∧ aliasMap !! key = None ∧
              key ∈ Object_prototype_members)
  ∧ (∀ message,
       resolveStages res pipelineId friendlyOrder aliasMap = Throws message →
       message = "No deal pipeline found for stage resolution" ∨
       message = "aliases is not iterable")
  ∧ resolveStages res pipelineId FRIENDLY_ORDER DEFAULT_ALIASES ≠ TypeError.
Proof.
  assert (Hex : ∀ keys,
    forallb (λ key, negb (reads_inherited aliasMap key)) keys = false ↔
      ∃ key, key ∈ keys ∧ aliasMap !! key = None ∧
             key ∈ Object_prototype_members).
  { intros keys. induction keys as [|k keys IH]; simpl.
    - split; [done|]. by intros (key & ?%elem_of_nil & _).
    - rewrite andb_false_iff, IH, negb_false_iff. unfold reads_inherited.
      rewrite andb_true_iff, !bool_decide_eq_true. split.
      + intros [[? ?]|(key & ? & ?)].
        * exists k. split; [constructor|done].
        * exists key. split; [by constructor|done].
      + intros (key & [->|Hin]%elem_of_cons & Hk); [by left|].
        right. by exists key. }
  destruct (select_pipeline (default [] (cat_results res)) pipelineId)
    as [pipe|] eqn:Hsel.
  - rewrite !(resolveStages_found _ _ _ _ pipe Hsel), <- Hex.
    assert (Hdefault : forallb (λ key, negb (reads_inherited DEFAULT_ALIASES key))
                         FRIENDLY_ORDER = true) by reflexivity.
    rewrite Hdefault. split_and!.
    + destruct (forallb _ friendlyOrder).
      * split; [done|]. by intros [_ ?].
      * split; [|done]. intros _. split; [by eexists|done].
    + intros message. destruct (forallb _ friendlyOrder); [done|].
      intros [= <-]. by right.
    + done.
  - unfold resolveStages. rewrite Hsel. split_and!.
    + split; [done|]. by intros [[? ?] _].
    + intros message [= <-]. by left.
    + done.
Qed.

Example resolveStages_odd_order :
  resolveStages sample_catalog None odd_order DEFAULT_ALIASES = TypeError.
Proof. reflexivity. Qed.

(** ** Matching ignores case *)

Lemma lower_upper_ascii c : lower_ascii (upper_ascii c) = lower_ascii c.
Proof. by destruct c as [[] [] [] [] [] [] [] []]. Qed.

Lemma toLowerCase_toUpperCase s : toLowerCase (toUpperCase s) = toLowerCase s.
Proof.
  induction s as [|c s IH]; simpl; [done|]. by rewrite lower_upper_ascii, IH.
Qed.

Lemma find_fmap {A B} (p : B → bool) (h : A → B) l :
  List.find p (map h l) = h <$> List.find (λ x, p (h x)) l.
Proof.
  induction l as [|x l IH]; simpl; [done|]. by destruct (p (h x)).
Qed.

Lemma findIdByAliases_fmap stageList (g : string → string) aliases :
  (∀ s, toLowerCase (g s) = toLowerCase s) →
  findIdByAliases stageList (map g aliases) = findIdByAliases stageList aliases.
Proof.
  intros Hg. induction aliases as [|a rest IH]; simpl; [done|].
  by rewrite Hg, IH.
Qed.

Lemma findIdByAliases_aliases_fmap stageList (g : string → string)
    (aliasMap : gmap string (list string)) key :
  (∀ s, toLowerCase (g s) = toLowerCase s) →
  findIdByAliases stageList (aliases_of (map g <$> aliasMap) key) =
    findIdByAliases stageList (aliases_of aliasMap key).
Proof.
  intros Hg. unfold aliases_of. rewrite lookup_fmap.
  destruct (aliasMap !! key) as [l|]; simpl; [by apply findIdByAliases_fmap|done].
Qed.

Lemma stageList_of_relabel (f : string → string) pipe :
  (∀ s, toLowerCase (f s) = toLowerCase s) →
  stageList_of (relabel_pipeline f pipe) = stageList_of pipe.
Proof.
  intros Hf. unfold stageList_of, relabel_pipeline. simpl.
  destruct (pd_stages pipe) as [l|]; simpl; [|done].
  rewrite map_map. apply map_ext. intros st. simpl.
  destruct (sd_label st); simpl; [by rewrite Hf|done].
Qed.

Lemma select_pipeline_relabel (f : string → string) res pipelineId :
  select_pipeline (default [] (cat_results (relabel_catalog f res))) pipelineId =
    relabel_pipeline f <$> select_pipeline (default [] (cat_results res)) pipelineId.
Proof.
  unfold select_pipeline, relabel_catalog. simpl.
  destruct (cat_results res) as [l|]; simpl.
  - destruct (truthy_opt pipelineId).
    + by rewrite find_fmap.
    + by destruct l.
  - by destruct (truthy_opt pipelineId).
Qed.

Lemma mapped_of_ext stageList friendlyOrder
    (aliasMap aliasMap' : gmap string (list string)) :
  (∀ key, findIdByAliases stageList (aliases_of aliasMap' key) =
          findIdByAliases stageList (aliases_of aliasMap key)) →
  mapped_of stageList friendlyOrder aliasMap' =
    mapped_of stageList friendlyOrder aliasMap.
Proof.
  intros H. induction friendlyOrder as [|key keys IH] using rev_ind; [done|].
  by rewrite !mapped_of_snoc, IH, H.
Qed.

(** Mapping the alias lists leaves the own entries of the alias map where
    they are. *)
Lemma forallb_reads_inherited_fmap (g : string → string)
    (aliasMap : gmap string (list string)) friendlyOrder :
  forallb (λ key, negb (reads_inherited (map g <$> aliasMap) key)) friendlyOrder =
    forallb (λ key, negb (reads_inherited aliasMap key)) friendlyOrder.
Proof.
  induction friendlyOrder as [|key keys IH]; simpl; [done|].
  rewrite IH. f_equal. f_equal. unfold reads_inherited. f_equal.
  apply bool_decide_ext. rewrite lookup_fmap. by destruct (aliasMap !! key).
Qed.

(** Changing the case of the letters of stage labels and of aliases changes
    nothing to the resolved funnel. *)
Theorem resolveStages_case_insensitive
    (res : catalog) (pipelineId : option string)
    (friendlyOrder : list string) (aliasMap : gmap string (list string))
    (f g : string → string) :
  (∀ s, toLowerCase (f s) = toLowerCase s) →
  (∀ s, toLowerCase (g s) = toLowerCase s) →
  resolveStages (relabel_catalog f res) pipelineId friendlyOrder (map g <$> aliasMap) =
    resolveStages res pipelineId friendlyOrder aliasMap.
Proof.
  intros Hf Hg. unfold resolveStages. rewrite select_pipeline_relabel.
  destruct (select_pipeline (default [] (cat_results res)) pipelineId)
    as [pipe|]; simpl; [|done].
  rewrite stageList_of_relabel by done.
  rewrite !mapped_from_mapped_of, forallb_reads_inherited_fmap.
  destruct (forallb _ friendlyOrder); [|done].
  rewrite (mapped_of_ext _ _ aliasMap (map g <$> aliasMap))
    by (intros key; by apply findIdByAliases_aliases_fmap).
  by rewrite findIdByAliases_aliases_fmap.
Qed.

Lemma resolveStages_case_insensitive_witness :
  (∀ s, toLowerCase (toUpperCase s) = toLowerCase s)
  ∧ resolveStages (relabel_catalog toUpperCase sample_catalog) None FRIENDLY_ORDER
      (map toUpperCase <$> DEFAULT_ALIASES) =
    resolveStages sample_catalog None FRIENDLY_ORDER DEFAULT_ALIASES.
Proof.
  split; [exact toLowerCase_toUpperCase|].
  exact (resolveStages_case_insensitive sample_catalog None FRIENDLY_ORDER
           DEFAULT_ALIASES toUpperCase toUpperCase
           toLowerCase_toUpperCase toLowerCase_toUpperCase).
Defined.

(** ** Paging *)

Lemma fetched_nonempty store after pages : fetched store after pages → pages ≠ [].
Proof. by destruct 1. Qed.

Lemma dealsCohort_short store after pages start end_ pipeline fuel :
  fetched store after pages → fuel < length pages →
  dealsCohort fuel store after start end_ pipeline = None.
Proof.
  intros Hf. revert fuel.
  induction Hf as [after Hlast|after pages Hnext _ IH]; intros fuel Hlt.
  - simpl in Hlt. by assert (fuel = 0) as -> by lia.
  - destruct fuel as [|fuel]; [done|]. simpl in *.
    rewrite Hnext, IH by lia. done.
Qed.

Lemma dealsCohort_enough store after pages start end_ pipeline fuel :
  fetched store after pages → length pages ≤ fuel →
  dealsCohort fuel store after start end_ pipeline =
    Some (List.filter (in_cohort start end_ pipeline) (flat_map pg_results pages)).
Proof.
  intros Hf. revert fuel.
  induction Hf as [after Hlast|after pages Hnext _ IH]; intros fuel Hle.
  - destruct fuel as [|fuel]; [simpl in Hle; lia|]. simpl.
    by rewrite Hlast, app_nil_r.
  - destruct fuel as [|fuel]; [simpl in Hle; lia|]. simpl in *.
    rewrite Hnext, IH by lia. simpl. by rewrite List.filter_app.
Qed.

(** The generator finishes exactly when the chain of cursors reaches a page
    without cursor; it then has fetched every page of the chain once, so it
    needs as many fetches as the chain has pages and no fewer. *)
Theorem dealsCohort_terminates_iff_chain_ends
    (store : deal_store) (after : option string)
    (start end_ : option Z) (pipeline : option string) :
  ((∃ fuel out, dealsCohort fuel store after start end_ pipeline = Some out) ↔
     ∃ pages, fetched store after pages)
  ∧ ∀ pages fuel,
      fetched store after pages →
      dealsCohort fuel store after start end_ pipeline =
        if bool_decide (length pages ≤ fuel)
        then Some (List.filter (in_cohort start end_ pipeline)
                     (flat_map pg_results pages))
        else None.
Proof.
  split.
  - split.
    + intros (fuel & out & Hout).
      destruct (dealsCohort_some _ _ _ _ _ _ _ Hout) as (pages & Hf & _). eauto.
    + intros (pages & Hf). eexists _, _. by apply dealsCohort_fetched.
  - intros pages fuel Hf. case_bool_decide.
    + by apply dealsCohort_enough.
    + apply (dealsCohort_short _ _ pages); [done|lia].
Qed.

(** There is no cap on the number of pages: on a store every page of which
    carries a cursor the generator never finishes. *)
Theorem dealsCohort_endless
    (store : deal_store) (start end_ : option Z) (pipeline : option string) :
  (∀ after, truthy_opt (pg_after (store after)) = true) →
  ∀ fuel after, dealsCohort fuel store after start end_ pipeline = None.
Proof.
  intros Hall. induction fuel as [|fuel IH]; intros after; simpl; [done|].
  by rewrite Hall, IH.
Qed.

Lemma dealsCohort_endless_witness :
  (∀ after, truthy_opt (pg_after (endless_store after)) = true)
  ∧ dealsCohort 1000 endless_store None (Some 100%Z) (Some 200%Z) None = None.
Proof.
  assert (H : ∀ after, truthy_opt (pg_after (endless_store after)) = true)
    by (intros after; reflexivity).
  split; [exact H|].
  exact (dealsCohort_endless endless_store (Some 100%Z) (Some 200%Z) None H 1000 None).
Defined.

Lemma filter_filter_implied {A} (f g : A → bool) l :
  (∀ x, f x = true → g x = true) →
  List.filter f (List.filter g l) = List.filter f l.
Proof.
  intros H. induction l as [|x l IH]; simpl; [done|].
  destruct (g x) eqn:Hg; simpl; rewrite IH; [done|].
  destruct (f x) eqn:Hfx; [|done]. apply H in Hfx. congruence.
Qed.

Lemma dealsCohort_narrow fuel store after start end_ pipeline start' end' pipeline' :
  (∀ d, in_cohort start end_ pipeline d = true →
        in_cohort start' end' pipeline' d = true) →
  dealsCohort fuel store after start end_ pipeline =
    List.filter (in_cohort start end_ pipeline) <$>
      dealsCohort fuel store after start' end' pipeline'.
Proof.
  intros Himp. revert after. induction fuel as [|fuel IH]; intros after; simpl;
    [done|].
  destruct (truthy_opt (pg_after (store after))).
  - rewrite IH.
    destruct (dealsCohort fuel store (pg_after (store after)) start' end' pipeline')
      as [rest|]; simpl; [|done].
    by rewrite List.filter_app, filter_filter_implied.
  - simpl. by rewrite filter_filter_implied.
Qed.

(** The cohort of a window inside another one, with or without a pipeline,
    is the cohort of the wider window over all pipelines filtered by the
    narrower test: the deals are the same, in the same order. *)
Theorem dealsCohort_narrower_window
    (fuel : nat) (store : deal_store) (after : option string)
    (s e s' e' : Z) (pipeline : option string) :
  (s' ≤ s)%Z → (e ≤ e')%Z →
  dealsCohort fuel store after (Some s) (Some e) pipeline =
    List.filter (in_cohort (Some s) (Some e) pipeline) <$>
      dealsCohort fuel store after (Some s') (Some e') None.
Proof.
  intros Hs He. apply dealsCohort_narrow. intros d.
  rewrite !in_cohort_spec.
  intros [(s0 & c & e0 & [= <-] & Hc & [= <-] & Hlo & Hhi) _]. split; [|done].
  exists s', c, e'. split_and!; [done..|lia|lia].
Qed.

Lemma dealsCohort_narrower_window_witness :
  (50 ≤ 100)%Z ∧ (200 ≤ 300)%Z
  ∧ dealsCohort 2 sample_store None (Some 100%Z) (Some 200%Z) (Some "default") =
      List.filter (in_cohort (Some 100%Z) (Some 200%Z) (Some "default")) <$>
        dealsCohort 2 sample_store None (Some 50%Z) (Some 300%Z) None.
Proof.
  split_and!; [lia|lia|].
  apply (dealsCohort_narrower_window 2 sample_store None 100 200 50 300
           (Some "default")); lia.
Defined.



(** ** Advancing is a strict order *)

(** Within one history, advancing from a stage to another is irreflexive,
    asymmetric and transitive: no deal advances from a stage to itself or in
    both directions between two stages. *)
Theorem advanced_strict_order (hist : list vt) (a b c : string) :
  advanced hist a a = false
  ∧ (advanced hist a b = true → advanced hist b a = false)
  ∧ (advanced hist a b = true → advanced hist b c = true →
     advanced hist a c = true).
Proof.
  unfold advanced.
  destruct (first_t hist a) as [ta|], (first_t hist b) as [tb|],
    (first_t hist c) as [tc|]; split_and!; try done;
    rewrite ?Z.ltb_lt, ?Z.ltb_ge, ?Z.ltb_irrefl; try done; lia.
Qed.

(** ** What the counters hold *)

Lemma ever_of_mentions d s : s ∈ ever_of d ↔ mentions s d = true.
Proof.
  unfold ever_of, mentions. by rewrite new_Set_elem, bool_decide_eq_true.
Qed.

Lemma count_of_ever_of_mentions d s :
  count_of s (ever_of d) = if mentions s d then 1 else 0.
Proof.
  rewrite count_of_ever_of. unfold mentions, ever_of.
  apply (f_equal (λ b : bool, if b then 1 else 0)), bool_decide_ext.
  apply new_Set_elem.
Qed.

Lemma count_of_flat_map_ever_of deals s :
  count_of s (flat_map ever_of deals) = length (List.filter (mentions s) deals).
Proof.
  induction deals as [|d deals IH]; [done|].
  cbn [flat_map List.filter]. rewrite count_of_app, IH, count_of_ever_of_mentions.
  by destruct (mentions s d).
Qed.

Lemma count_of_flat_map_reach_keys stages deals s :
  count_of s (flat_map (reach_keys stages) deals) =
    if own_key s
    then count_of s stages * length (List.filter (mentions s) deals)
    else 0.
Proof.
  induction deals as [|d deals IH];
    [cbn; rewrite Nat.mul_0_r; by destruct (own_key s)|].
  cbn [flat_map List.filter]. rewrite count_of_app, IH, count_of_reach_keys.
  destruct (own_key s); [|by rewrite andb_false_r]. rewrite andb_true_r.
  destruct (mentions s d) eqn:Hm.
  - rewrite bool_decide_eq_true_2 by by apply ever_of_mentions.
    cbn [length]. rewrite Nat.mul_succ_r. lia.
  - rewrite bool_decide_eq_false_2; [done|].
    rewrite ever_of_mentions. congruence.
Qed.

Lemma counted_won_mentions wonStage d w :
  wonStage = Some w → mentions w d = true → counted_won wonStage d = true.
Proof.
  intros -> Hm. apply counted_won_spec. unfold mentions in Hm.
  apply bool_decide_eq_true in Hm. split.
  - intros Hnil. rewrite Hnil in Hm. by apply elem_of_nil in Hm.
  - right. by exists w.
Qed.

Lemma incr_all_empty_lookup ks j :
  incr_all ks ∅ !! j =
    match count_of j ks with
    | O => None
    | S n => Some (S n)
    end.
Proof.
  rewrite incr_all_lookup, lookup_empty.
  destruct (bool_decide_reflect (j ∈ ks)) as [Hin|Hout].
  - apply count_of_pos in Hin. destruct (count_of j ks); [lia|done].
  - by rewrite count_of_zero.
Qed.

Section CounterFacts.
Context {num : Type} `{!JsNumber num} (parseFloat : string → num).

(** [reachedCounts] has exactly the listed stages other than ["__proto__"]
    as keys, and holds for each the number of deals whose history mentions
    it, once for every position the stage has in the list.  Under
    ["__proto__"] it has no counter, listed or not: a read yields the
    prototype of the object. *)
Theorem reachedCounts_value (stages : list string) (deals : list deal) (s : string) :
  reachedCounts (computeProgression (num:=num) stages deals) !! s =
    (if bool_decide (s ∈ stages) && own_key s
     then Some (count_of s stages * length (List.filter (mentions s) deals))
     else None)
  ∧ plain_get_or_zero (reachedCounts (computeProgression (num:=num) stages deals))
      "__proto__" = Inherited.
Proof.
  split.
  - rewrite reachedCounts_lookup, count_of_flat_map_reach_keys.
    destruct (own_key s); [done|]. by rewrite andb_false_r.
  - rewrite computeProgression_reachedCounts. apply proto_reading.
Qed.

(** [reached] and [wonAfter] hold exactly the stages that some deal, some won
    deal, visited, in the funnel or not, each with the number of those deals:
    a stage visited several times by one deal counts once. *)
Theorem reached_and_wonAfter_values
    (deals : list deal) (stages : list string) (wonStage : option string)
    (avgWonOverride : option num) (s : string) :
  reached (computeStats parseFloat deals stages wonStage avgWonOverride) !! s =
    match length (List.filter (mentions s) deals) with
    | O => None
    | S n => Some (S n)
    end
  ∧ wonAfter (computeStats parseFloat deals stages wonStage avgWonOverride) !! s =
    match length (List.filter
                    (λ d, counted_won wonStage d && bool_decide (s ∈ ever_of d))
                    deals) with
    | O => None
    | S n => Some (S n)
    end.
Proof.
  rewrite computeStats_closed. cbn [reached wonAfter].
  rewrite !incr_all_empty_lookup.
  by rewrite count_of_flat_map_ever_of, count_of_won_keys_deals.
Qed.

(** Every deal that reached the won stage is a won deal: at the won stage
    [wonAfter] and [reached] agree. *)
Theorem wonAfter_at_wonStage
    (deals : list deal) (stages : list string) (w : string)
    (avgWonOverride : option num) :
  wonAfter (computeStats parseFloat deals stages (Some w) avgWonOverride) !! w =
    reached (computeStats parseFloat deals stages (Some w) avgWonOverride) !! w.
Proof.
  rewrite computeStats_closed. cbn [reached wonAfter].
  rewrite !incr_all_empty_lookup.
  rewrite count_of_flat_map_ever_of, count_of_won_keys_deals.
  assert (List.filter (λ d, counted_won (Some w) d && bool_decide (w ∈ ever_of d))
            deals = List.filter (mentions w) deals) as ->; [|done].
  apply List.filter_ext. intros d.
  destruct (mentions w d) eqn:Hm.
  - rewrite (counted_won_mentions (Some w) d w eq_refl Hm).
    by rewrite bool_decide_eq_true_2 by by apply ever_of_mentions.
  - rewrite bool_decide_eq_false_2; [by rewrite andb_false_r|].
    rewrite ever_of_mentions. congruence.
Qed.
End CounterFacts.

(** ** Deals without history *)

Lemma fold_left_skip {A B} (step : B → A → B) (keep : A → bool) l b :
  (∀ b x, keep x = false → step b x = b) →
  fold_left step l b = fold_left step (List.filter keep l) b.
Proof.
  intros Hskip. revert b. induction l as [|x l IH]; intros b; simpl; [done|].
  destruct (keep x) eqn:Hx; simpl; [apply IH|].
  rewrite Hskip by done. apply IH.
Qed.

Lemma filter_none {A} (f : A → bool) l :
  (∀ x, x ∈ l → f x = false) → List.filter f l = [].
Proof.
  induction l as [|x l IH]; intros H; simpl; [done|].
  rewrite (H x) by constructor. apply IH. intros y Hy. apply H. by constructor.
Qed.

Lemma progression_step_no_history stages acc d :
  has_history d = false → progression_step stages acc d = acc.
Proof.
  unfold has_history. intros Hh. destruct acc as [pc rc].
  rewrite progression_step_closed.
  assert (Hsorted : sorted_hist d = []).
  { unfold sorted_hist, raw_hist. by destruct (default [] (d_dealstage d)). }
  unfold advance_keys, reach_keys. rewrite Hsorted.
  rewrite !filter_none; [done| |]; by intros.
Qed.

Section HistoryFacts.
Context {num : Type} `{!JsNumber num} (parseFloat : string → num).

Lemma stats_step_no_history wonStage (t : tally num) d :
  has_history d = false → stats_step parseFloat wonStage t d = t.
Proof.
  unfold has_history, stats_step.
  by destruct (default [] (d_dealstage d)).
Qed.

(** Deals whose stage history is missing or empty contribute to nothing: the
    output is the output on the remaining deals. *)
Theorem computeStats_ignores_deals_without_history
    (deals : list deal) (stages : list string) (wonStage : option string)
    (avgWonOverride : option num) :
  computeStats parseFloat deals stages wonStage avgWonOverride =
    computeStats parseFloat (List.filter has_history deals) stages wonStage
      avgWonOverride.
Proof.
  assert (Ht : stats_tally parseFloat wonStage deals =
               stats_tally parseFloat wonStage (List.filter has_history deals)).
  { unfold stats_tally. apply fold_left_skip.
    intros t d. apply stats_step_no_history. }
  assert (Hp : progression_counts stages deals =
               progression_counts stages (List.filter has_history deals)).
  { unfold progression_counts. apply fold_left_skip.
    intros acc d. apply progression_step_no_history. }
  unfold computeStats, computeProgression. by rewrite Ht, Hp.
Qed.

(** ** Order of the history entries *)

Lemma ever_of_perm d d' :
  Permutation (default [] (d_dealstage d)) (default [] (d_dealstage d')) →
  Permutation (ever_of d) (ever_of d').
Proof.
  intros Hp. apply NoDup_Permutation; [apply new_Set_NoDup..|].
  intros s. unfold ever_of. by rewrite !new_Set_elem, Hp.
Qed.

Lemma counted_won_perm wonStage d d' :
  same_up_to_history_order d d' →
  counted_won wonStage d = counted_won wonStage d'.
Proof.
  intros (_ & Hflag & Hp).
  destruct (counted_won wonStage d') eqn:H'.
  - apply counted_won_spec. apply counted_won_spec in H' as [Hne Hwon].
    rewrite Hflag. split.
    + intros Hnil. rewrite Hnil in Hp. by apply Permutation_nil in Hp.
    + destruct Hwon as [?|(w & -> & Hw)]; [by left|right].
      exists w. by rewrite Hp.
  - destruct (counted_won wonStage d) eqn:H; [|done].
    apply counted_won_spec in H as [Hne Hwon].
    assert (counted_won wonStage d' = true); [|congruence].
    apply counted_won_spec. rewrite <- Hflag. split.
    + intros Hnil. rewrite Hnil in Hp. symmetry in Hp.
      by apply Permutation_nil in Hp.
    + destruct Hwon as [?|(w & -> & Hw)]; [by left|right].
      exists w. by rewrite <- Hp.
Qed.

Lemma stats_step_perm wonStage (t : tally num) d d' :
  same_up_to_history_order d d' →
  stats_step parseFloat wonStage t d = stats_step parseFloat wonStage t d'.
Proof.
  intros Hsame. rewrite !stats_step_closed.
  pose proof (counted_won_perm wonStage d d' Hsame) as Hwon.
  destruct Hsame as (Hamt & Hflag & Hp).
  pose proof (ever_of_perm d d' Hp) as Hever.
  assert (Ha : amount_of parseFloat d = amount_of parseFloat d')
    by (unfold amount_of; by rewrite Hamt).
  f_equal.
  - by apply incr_all_perm.
  - unfold won_keys. rewrite Hwon.
    destruct (counted_won wonStage d'); [by apply incr_all_perm|done].
  - by rewrite Hwon.
  - unfold won_sum_from, positive_won. cbn [List.filter]. rewrite Hwon, Ha.
    by destruct (counted_won wonStage d' && ngt (amount_of parseFloat d') nzero);
      simpl; rewrite ?Ha.
Qed.
End HistoryFacts.

Lemma earliest_perm s hist hist' :
  Permutation hist hist' → earliest s hist = earliest s hist'.
Proof.
  intros Hp.
  assert (Hiff : ∀ t, earliest s hist = Some t ↔ earliest s hist' = Some t).
  { intros t. rewrite !earliest_first_seen. unfold first_seen.
    by setoid_rewrite Hp. }
  destruct (earliest s hist) as [t|] eqn:E.
  - symmetry. by apply Hiff.
  - destruct (earliest s hist') as [t'|] eqn:E'; [|done].
    by apply Hiff.
Qed.

Lemma progression_step_perm stages acc d d' :
  Permutation (default [] (d_dealstage d)) (default [] (d_dealstage d')) →
  progression_step stages acc d = progression_step stages acc d'.
Proof.
  intros Hp. destruct acc as [pc rc]. rewrite !progression_step_closed.
  assert (Hraw : Permutation (raw_hist d) (raw_hist d'))
    by (unfold raw_hist; by apply Permutation_map).
  f_equal; f_equal.
  - unfold advance_keys. f_equal. apply List.filter_ext. intros [a b].
    unfold advanced, sorted_hist. cbn [fst snd].
    by rewrite !first_t_sort_by_t, !(earliest_perm _ _ _ Hraw).
  - unfold reach_keys. apply List.filter_ext. intros s.
    rewrite !has_reachedSet. f_equal. apply bool_decide_ext.
    unfold ever_of. by rewrite !new_Set_elem, Hp.
Qed.

Lemma fold_left_Forall2 {A B} (step : B → A → B) (R : A → A → Prop) l l' :
  (∀ b x y, R x y → step b x = step b y) →
  Forall2 R l l' → ∀ b, fold_left step l b = fold_left step l' b.
Proof.
  intros Hstep. induction 1 as [|x y l l' Hxy _ IH]; intros b; simpl; [done|].
  by rewrite (Hstep b x y Hxy), IH.
Qed.

Section HistoryOrder.
Context {num : Type} `{!JsNumber num} (parseFloat : string → num).

(** The order in which the entries of a stage history arrive does not
    matter: deals that differ only by that order give the same output. *)
Theorem computeStats_history_order
    (deals deals' : list deal) (stages : list string)
    (wonStage : option string) (avgWonOverride : option num) :
  Forall2 same_up_to_history_order deals deals' →
  computeStats parseFloat deals stages wonStage avgWonOverride =
    computeStats parseFloat deals' stages wonStage avgWonOverride.
Proof.
  intros Hsame.
  assert (Ht : stats_tally parseFloat wonStage deals =
               stats_tally parseFloat wonStage deals').
  { unfold stats_tally.
    apply (fold_left_Forall2 _ same_up_to_history_order); [|done].
    intros t x y. apply stats_step_perm. }
  assert (Hp : progression_counts stages deals = progression_counts stages deals').
  { unfold progression_counts.
    apply (fold_left_Forall2 _ same_up_to_history_order); [|done].
    intros acc x y (_ & _ & Hxy). by apply progression_step_perm. }
  unfold computeStats, computeProgression. by rewrite Ht, Hp.
Qed.
End HistoryOrder.

Lemma computeStats_history_order_witness :
  Forall2 same_up_to_history_order [shuffled] [unshuffled]
  ∧ computeStats (num:=float) parseDecimal [shuffled] funnel (Some "closedwon") None =
    computeStats (num:=float) parseDecimal [unshuffled] funnel (Some "closedwon") None.
Proof.
  assert (H : Forall2 same_up_to_history_order [shuffled] [unshuffled]).
  { constructor; [|constructor]. split_and!; [reflexivity..|]. simpl.
    apply perm_trans with
      (entry "inbox" 20 :: entry "sequenced" 20 :: entry "inbox" 10
         :: [entry "sequenced" 40]).
    - apply perm_swap.
    - apply perm_trans with
        (entry "inbox" 20 :: entry "inbox" 10 :: entry "sequenced" 20
           :: [entry "sequenced" 40]).
      + apply perm_skip, perm_swap.
      + apply perm_swap. }
  split; [exact H|].
  exact (computeStats_history_order (num:=float) parseDecimal [shuffled] [unshuffled]
           funnel (Some "closedwon") None H).
Defined.

(** ** Shape of the output *)

Lemma fold_insert_snoc {A V} (kf : A → string) (vf : A → V) xs x
    (m : gmap string V) :
  fold_left (λ m x, <[kf x := vf x]> m) (xs ++ [x]) m =
    <[kf x := vf x]> (fold_left (λ m x, <[kf x := vf x]> m) xs m).
Proof. by rewrite fold_left_app. Qed.

(** A map filled by a loop holds at a key what the last iteration with that
    key wrote. *)
Lemma fold_insert_lookup_find {A V} (kf : A → string) (vf : A → V) xs k :
  fold_left (λ m x, <[kf x := vf x]> m) xs (∅ : gmap string V) !! k =
    vf <$> List.find (λ x, bool_decide (kf x = k)) (rev xs).
Proof.
  induction xs as [|x xs IH] using rev_ind; [done|].
  rewrite fold_insert_snoc, rev_app_distr, lookup_insert. simpl.
  case_decide.
  - by rewrite bool_decide_eq_true_2.
  - by rewrite bool_decide_eq_false_2.
Qed.

Lemma find_rev_some {A} (f : A → bool) xs x :
  List.find f (rev xs) = Some x → x ∈ xs ∧ f x = true.
Proof.
  intros [Hin Hf]%find_some. split; [|done].
  apply list_elem_of_In. by apply in_rev.
Qed.

Lemma find_rev_unique {A} (f : A → bool) xs x :
  x ∈ xs → f x = true → (∀ y, y ∈ xs → f y = true → y = x) →
  List.find f (rev xs) = Some x.
Proof.
  intros Hin Hf Huniq.
  destruct (List.find f (rev xs)) as [y|] eqn:Hfind.
  - apply find_rev_some in Hfind as [Hy Hfy]. f_equal. by apply Huniq.
  - apply find_none_iff with (x := x) in Hfind; [congruence|].
    apply list_elem_of_In, in_rev. rewrite rev_involutive.
    by apply list_elem_of_In.
Qed.

Lemma adjacent_fst_unique stages s s1 s2 :
  NoDup stages → (s, s1) ∈ adjacent stages → (s, s2) ∈ adjacent stages → s1 = s2.
Proof.
  induction stages as [|a stages IH]; [by intros _ ?%elem_of_nil|].
  destruct stages as [|b rest]; [by intros _ ?%elem_of_nil|].
  change (adjacent (a :: b :: rest)) with ((a, b) :: adjacent (b :: rest)).
  intros [Ha Hnd]%NoDup_cons [[= -> ->]|H1]%elem_of_cons [[= ->]|H2]%elem_of_cons.
  - done.
  - by apply adjacent_elem in H2 as [? _].
  - by apply adjacent_elem in H1 as [? _].
  - by apply IH.
Qed.

Lemma adjacent_not_last stages z s1 :
  NoDup stages → last stages = Some z → (z, s1) ∉ adjacent stages.
Proof.
  induction stages as [|a stages IH]; [done|].
  destruct stages as [|b rest]; [by intros _ _ ?%elem_of_nil|].
  change (adjacent (a :: b :: rest)) with ((a, b) :: adjacent (b :: rest)).
  change (last (a :: b :: rest)) with (last (b :: rest)).
  intros [Ha Hnd]%NoDup_cons Hlast [[= -> ->]|Hin]%elem_of_cons.
  - by apply last_Some_elem_of in Hlast.
  - by apply (IH Hnd Hlast).
Qed.

Lemma find_rev_filter_own {B} (xs : list (string * B)) s :
  List.find (λ p, bool_decide (fst p = s))
            (rev (List.filter (λ p, own_key (fst p)) xs)) =
    if own_key s
    then List.find (λ p, bool_decide (fst p = s)) (rev xs)
    else None.
Proof.
  rewrite <- filter_rev.
  induction (rev xs) as [|[a b] l IH]; simpl; [by destruct (own_key s)|].
  destruct (bool_decide_reflect (a = s)) as [->|Hne].
  - destruct (own_key s) eqn:Hown; simpl.
    + by rewrite bool_decide_eq_true_2.
    + by rewrite IH.
  - destruct (own_key a); simpl; [|done].
    by rewrite bool_decide_eq_false_2.
Qed.

Section ShapeFacts.
Context {num : Type} `{!JsNumber num} (parseFloat : string → num).

Lemma progression_lookup stages deals k :
  progression (computeProgression (num:=num) stages deals) !! k =
    edge_for (fst (progression_counts stages deals))
             (snd (progression_counts stages deals)) <$>
      List.find (λ p, bool_decide (edge_key (fst p) (snd p) = k))
                (rev (adjacent stages)).
Proof.
  rewrite computeProgression_closed. cbn [progression].
  apply (fold_insert_lookup_find (λ p, edge_key (fst p) (snd p))).
Qed.

Lemma stageLoss_lookup stages deals s :
  stageLoss (computeProgression (num:=num) stages deals) !! s =
    (λ p, nsub nunit
            (p_advance (edge_for (fst (progression_counts stages deals))
                                 (snd (progression_counts stages deals)) p))) <$>
      if own_key s
      then List.find (λ p, bool_decide (fst p = s)) (rev (adjacent stages))
      else None.
Proof.
  rewrite computeProgression_closed. cbn [stageLoss].
  rewrite (fold_plain_set fst), (fold_insert_lookup_find fst).
  by rewrite find_rev_filter_own.
Qed.

(** The output has one completion record for every listed stage other than
    ["__proto__"], one progression edge for every adjacent pair and one loss
    for every stage other than ["__proto__"] with a successor, and nothing
    else; with fewer than two stages there is no edge and no loss at all.
    (A write to ["__proto__"] makes no own property of the plain objects
    [completion] and [stageLoss].) *)
Theorem computeStats_output_keys
    (deals : list deal) (stages : list string) (wonStage : option string)
    (avgWonOverride : option num) :
  (∀ s, is_Some (completion (computeStats parseFloat deals stages wonStage
                               avgWonOverride) !! s) ↔
        s ∈ stages ∧ s ≠ "__proto__")
  ∧ (∀ k, is_Some (st_progression (computeStats parseFloat deals stages wonStage
                                     avgWonOverride) !! k) ↔
          ∃ s s1, (s, s1) ∈ adjacent stages ∧ k = edge_key s s1)
  ∧ (∀ s, is_Some (st_stageLoss (computeStats parseFloat deals stages wonStage
                                   avgWonOverride) !! s) ↔
          s ≠ "__proto__" ∧ ∃ s1, (s, s1) ∈ adjacent stages)
  ∧ (length stages ≤ 1 →
     st_progression (computeStats parseFloat deals stages wonStage avgWonOverride) = ∅
     ∧ st_stageLoss (computeStats parseFloat deals stages wonStage avgWonOverride) = ∅).
Proof.
  change (st_progression (computeStats parseFloat deals stages wonStage avgWonOverride))
    with (progression (computeProgression (num:=num) stages deals)).
  change (st_stageLoss (computeStats parseFloat deals stages wonStage avgWonOverride))
    with (stageLoss (computeProgression (num:=num) stages deals)).
  split_and!.
  - intros s. rewrite computeStats_completion, fold_insert_id_lookup.
    rewrite <- own_key_spec, <- (elem_of_filter_own own_key).
    destruct (bool_decide_reflect (s ∈ List.filter own_key stages));
      split; by try intros [? ?].
  - intros k. rewrite progression_lookup, fmap_is_Some. split.
    + intros [[s s1] [Hin Hk%bool_decide_eq_true]%find_rev_some].
      by exists s, s1.
    + intros (s & s1 & Hin & ->).
      destruct (List.find (λ p, bool_decide (edge_key (fst p) (snd p) = edge_key s s1))
                  (rev (adjacent stages))) as [p|] eqn:Hfind; [done|].
      apply find_none_iff with (x := (s, s1)) in Hfind.
      * by rewrite bool_decide_eq_true_2 in Hfind.
      * apply list_elem_of_In, in_rev. rewrite rev_involutive.
        by apply list_elem_of_In.
  - intros s. rewrite stageLoss_lookup, fmap_is_Some, <- own_key_spec.
    destruct (own_key s); [|split; [by intros [? ?]|by intros [? _]]].
    split.
    + intros [[a a1] [Hin Hk%bool_decide_eq_true]%find_rev_some].
      simpl in Hk. subst a. split; [done|]. by exists a1.
    + intros (_ & s1 & Hin).
      destruct (List.find (λ p, bool_decide (fst p = s)) (rev (adjacent stages)))
        as [p|] eqn:Hfind; [done|].
      apply find_none_iff with (x := (s, s1)) in Hfind.
      * by rewrite bool_decide_eq_true_2 in Hfind.
      * apply list_elem_of_In, in_rev. rewrite rev_involutive.
        by apply list_elem_of_In.
  - intros Hlen. rewrite computeProgression_closed. cbn [progression stageLoss].
    destruct stages as [|a [|b rest]]; [done..|simpl in Hlen; lia].
Qed.

(** On a duplicate-free stage list whose edge keys identify the stage they
    leave, the loss of a stage other than ["__proto__"] is one minus the
    advance probability of the edge that leaves it, the stage ["__proto__"]
    has no loss, and the last stage has no loss. *)
Theorem stageLoss_complements_p_advance
    (deals : list deal) (stages : list string) (wonStage : option string)
    (avgWonOverride : option num) :
  NoDup stages →
  distinct_keys stages →
  (∀ s s1, (s, s1) ∈ adjacent stages →
     ∃ e, st_progression (computeStats parseFloat deals stages wonStage
                            avgWonOverride) !! edge_key s s1 = Some e
          ∧ st_stageLoss (computeStats parseFloat deals stages wonStage
                            avgWonOverride) !! s =
            if own_key s then Some (nsub nunit (p_advance e)) else None)
  ∧ (∀ z, last stages = Some z →
          st_stageLoss (computeStats parseFloat deals stages wonStage
                          avgWonOverride) !! z = None).
Proof.
  intros Hnd Hdk.
  change (st_progression (computeStats parseFloat deals stages wonStage avgWonOverride))
    with (progression (computeProgression (num:=num) stages deals)).
  change (st_stageLoss (computeStats parseFloat deals stages wonStage avgWonOverride))
    with (stageLoss (computeProgression (num:=num) stages deals)).
  split.
  - intros s s1 Hin. eexists. rewrite progression_lookup, stageLoss_lookup.
    rewrite (find_rev_unique _ _ (s, s1) Hin).
    + destruct (own_key s); [|done].
      rewrite (find_rev_unique _ _ (s, s1) Hin); [done|by apply bool_decide_eq_true|].
      intros [a a1] Ha Hk%bool_decide_eq_true. simpl in Hk. subst a.
      f_equal. by apply (adjacent_fst_unique stages s).
    + by apply bool_decide_eq_true.
    + intros [a a1] Ha Hk%bool_decide_eq_true. simpl in Hk.
      assert (a = s) as -> by by apply (Hdk a a1 s s1).
      f_equal. by apply (adjacent_fst_unique stages s).
  - intros z Hlast. rewrite stageLoss_lookup.
    destruct (own_key z); [|done].
    destruct (List.find (λ p, bool_decide (fst p = z)) (rev (adjacent stages)))
      as [[a a1]|] eqn:Hfind; [|done].
    apply find_rev_some in Hfind as [Hin Hk%bool_decide_eq_true].
    simpl in Hk. subst a. by apply adjacent_not_last in Hin.
Qed.
End ShapeFacts.

Lemma funnel_NoDup : NoDup funnel.
Proof.
  unfold funnel. repeat (apply NoDup_cons; split;
    [intros Hin; repeat (apply elem_of_cons in Hin as [Heq|Hin];
                         [discriminate Heq|]);
     by apply elem_of_nil in Hin|]).
  apply NoDup_nil_2.
Qed.

Lemma funnel_distinct_keys : distinct_keys funnel.
Proof.
  apply gt_free_distinct_keys. intros s Hs.
  repeat (apply elem_of_cons in Hs as [->|Hs]; [reflexivity|]).
  by apply elem_of_nil in Hs.
Qed.

Lemma stageLoss_complements_p_advance_witness :
  NoDup funnel ∧ distinct_keys funnel
  ∧ ∀ z, last funnel = Some z →
         st_stageLoss (computeStats (num:=float) parseDecimal [walker; idler] funnel
                         (Some "closedwon") None) !! z = None.
Proof.
  split_and!; [exact funnel_NoDup|exact funnel_distinct_keys|].
  destruct (stageLoss_complements_p_advance (num:=float) parseDecimal
              [walker; idler] funnel (Some "closedwon") None
              funnel_NoDup funnel_distinct_keys) as [_ Hlast].
  exact Hlast.
Defined.

(** ** What an edge counts *)

Lemma count_of_map_filter_le {A} (kf : A → string) (f : A → bool) k xs :
  count_of k (map kf (List.filter f xs)) ≤ count_of k (map kf xs).
Proof.
  induction xs as [|x xs IH]; simpl; [done|].
  destruct (f x); simpl; rewrite ?count_of_cons; lia.
Qed.

(** Among positions of which exactly one has the key [kf x], the filtered
    ones with that key are that position or none. *)
Lemma count_of_map_filter_unique {A} (kf : A → string) (f : A → bool) x xs :
  x ∈ xs →
  count_of (kf x) (map kf xs) = 1 →
  count_of (kf x) (map kf (List.filter f xs)) = if f x then 1 else 0.
Proof.
  induction xs as [|y xs IH]; [by intros ?%elem_of_nil|].
  intros Hin Hone. cbn [map] in Hone. rewrite count_of_cons in Hone.
  pose proof (count_of_map_filter_le kf f (kf x) xs) as Hle.
  destruct (decide (kf y = kf x)) as [Hk|Hk].
  - assert (Hnone : count_of (kf x) (map kf xs) = 0) by lia.
    assert (x = y) as <-.
    { apply elem_of_cons in Hin as [?|Hin]; [done|]. exfalso.
      assert (0 < count_of (kf x) (map kf xs)); [|lia].
      apply count_of_pos, list_elem_of_fmap. by exists x. }
    cbn [List.filter]. destruct (f x); cbn [map]; rewrite ?count_of_cons;
      rewrite ?decide_True by done; lia.
  - apply elem_of_cons in Hin as [->|Hin]; [done|].
    cbn [List.filter]. destruct (f y); cbn [map]; rewrite ?count_of_cons;
      rewrite ?decide_False by done; apply IH; done || lia.
Qed.

Section EdgeFacts.
Context {num : Type} `{!JsNumber num}.

(** For an adjacent pair [(s, s1)] whose key no other position of the stage
    list has, the edge of the pair reports as [progressed] the number of
    deals that advanced along the pair; a deal advances along it exactly
    when its history shows both stages and the earliest timestamp of [s1] is
    strictly greater than the earliest timestamp of [s]; and the history is
    read sorted by ascending timestamp, entries of equal timestamp in the
    order they came. *)
Theorem progressed_counts_first_seen_later
    (stages : list string) (deals : list deal) (s s1 : string) :
  (s, s1) ∈ adjacent stages →
  count_of (edge_key s s1)
    (map (λ p, edge_key (fst p) (snd p)) (adjacent stages)) = 1 →
  (∃ e, progression (computeProgression (num:=num) stages deals)
          !! edge_key s s1 = Some e
        ∧ progressed e =
            length (List.filter (λ d, advanced (sorted_hist d) s s1) deals))
  ∧ (∀ d, advanced (sorted_hist d) s s1 = true ↔
          ∃ t t1, first_seen (raw_hist d) s t ∧ first_seen (raw_hist d) s1 t1 ∧
                  (t < t1)%Z)
  ∧ (∀ d, Permutation (sorted_hist d) (raw_hist d)
          ∧ ascending (sorted_hist d)
          ∧ ∀ t, at_time t (sorted_hist d) = at_time t (raw_hist d)).
Proof.
  intros Hin Hone. split_and!.
  - rewrite progression_lookup.
    destruct (List.find (λ p, bool_decide (edge_key (fst p) (snd p) = edge_key s s1))
                (rev (adjacent stages))) as [[a a1]|] eqn:Hfind.
    + apply find_rev_some in Hfind as [_ Hk%bool_decide_eq_true].
      cbn [fst snd] in Hk. eexists. split; [done|].
      cbn [edge_for progressed fst snd]. rewrite Hk, progression_counts_closed.
      cbn [fst]. rewrite incr_all_count, lookup_empty. cbn [default].
      rewrite Nat.add_0_l.
      induction deals as [|d deals IH]; [done|].
      cbn [flat_map List.filter]. rewrite count_of_app, IH. unfold advance_keys.
      rewrite (count_of_map_filter_unique (λ p, edge_key (fst p) (snd p))
                 (λ p, advanced (sorted_hist d) (fst p) (snd p)) (s, s1))
        by done.
      cbn [fst snd]. by destruct (advanced (sorted_hist d) s s1).
    + apply find_none_iff with (x := (s, s1)) in Hfind.
      * by rewrite bool_decide_eq_true_2 in Hfind.
      * apply list_elem_of_In, in_rev. rewrite rev_involutive.
        by apply list_elem_of_In.
  - intros d. apply advanced_spec.
  - intros d. split_and!;
      [apply sort_by_t_perm|apply sort_by_t_ascending|intros t; apply sort_by_t_stable].
Qed.
End EdgeFacts.

Lemma progressed_counts_first_seen_later_witness :
  ("inbox", "sequenced") ∈ adjacent funnel
  ∧ count_of (edge_key "inbox" "sequenced")
      (map (λ p, edge_key (fst p) (snd p)) (adjacent funnel)) = 1
  ∧ ∃ e, progression (computeProgression (num:=float) funnel [walker; idler])
           !! edge_key "inbox" "sequenced" = Some e
         ∧ progressed e = 1.
Proof.
  assert (Hin : ("inbox", "sequenced") ∈ adjacent funnel) by constructor.
  split; [exact Hin|]. split; [reflexivity|].
  destruct (progressed_counts_first_seen_later (num:=float) funnel
              [walker; idler] "inbox" "sequenced" Hin eq_refl)
    as [(e & He & Hp) _].
  exists e. split; [exact He|exact Hp].
Defined.

(** ** Merging cohorts *)

Section MergeFacts.
Context {num : Type} `{!JsNumber num} (parseFloat : string → num).

Lemma progression_counts_app stages deals1 deals2 k s :
  default 0 (fst (progression_counts stages (deals1 ++ deals2)) !! k) =
    default 0 (fst (progression_counts stages deals1) !! k) +
    default 0 (fst (progression_counts stages deals2) !! k)
  ∧ default 0 (snd (progression_counts stages (deals1 ++ deals2)) !! s) =
    default 0 (snd (progression_counts stages deals1) !! s) +
    default 0 (snd (progression_counts stages deals2) !! s).
Proof.
  rewrite !progression_counts_closed. cbn [fst snd].
  rewrite !incr_all_count, !flat_map_app, !count_of_app, lookup_empty,
    zero_counts_lookup.
  destruct (bool_decide (s ∈ stages) && own_key s); simpl; lia.
Qed.

Lemma reading_app stages deals1 deals2 s :
  plain_get_or_zero (snd (progression_counts stages (deals1 ++ deals2))) s =
    reading_plus (plain_get_or_zero (snd (progression_counts stages deals1)) s)
                 (plain_get_or_zero (snd (progression_counts stages deals2)) s).
Proof.
  unfold plain_get_or_zero. rewrite !progression_counts_reached.
  destruct (bool_decide (s ∈ stages) && own_key s); simpl.
  - by rewrite flat_map_app, count_of_app.
  - by destruct (bool_decide (s ∈ Object_prototype_members)).
Qed.

(** Counts add up when two cohorts are merged: [reached], [wonAfter], and the
    [from_reached] and [progressed] of every edge of the merged cohort are
    the sums of those of its two parts; a [from_reached] that is no counter
    but the prototype read through ["__proto__"] is that in all three. *)
Theorem computeStats_counts_additive
    (deals1 deals2 : list deal) (stages : list string)
    (wonStage : option string) (avgWonOverride : option num) :
  (∀ s,
     default 0 (reached (computeStats parseFloat (deals1 ++ deals2) stages wonStage
                           avgWonOverride) !! s) =
       default 0 (reached (computeStats parseFloat deals1 stages wonStage
                             avgWonOverride) !! s) +
       default 0 (reached (computeStats parseFloat deals2 stages wonStage
                             avgWonOverride) !! s)
     ∧ default 0 (wonAfter (computeStats parseFloat (deals1 ++ deals2) stages
                              wonStage avgWonOverride) !! s) =
       default 0 (wonAfter (computeStats parseFloat deals1 stages wonStage
                              avgWonOverride) !! s) +
       default 0 (wonAfter (computeStats parseFloat deals2 stages wonStage
                              avgWonOverride) !! s))
  ∧ ∀ k e,
      st_progression (computeStats parseFloat (deals1 ++ deals2) stages wonStage
                        avgWonOverride) !! k = Some e →
      ∃ e1 e2,
        st_progression (computeStats parseFloat deals1 stages wonStage
                          avgWonOverride) !! k = Some e1
        ∧ st_progression (computeStats parseFloat deals2 stages wonStage
                            avgWonOverride) !! k = Some e2
        ∧ from_reached e = reading_plus (from_reached e1) (from_reached e2)
        ∧ progressed e = progressed e1 + progressed e2.
Proof.
  split.
  - intros s. rewrite !reached_lookup, !wonAfter_lookup.
    by rewrite !flat_map_app, !count_of_app.
  - intros k e.
    change (st_progression (computeStats parseFloat (deals1 ++ deals2) stages
                              wonStage avgWonOverride))
      with (progression (computeProgression (num:=num) stages (deals1 ++ deals2))).
    change (st_progression (computeStats parseFloat deals1 stages wonStage
                              avgWonOverride))
      with (progression (computeProgression (num:=num) stages deals1)).
    change (st_progression (computeStats parseFloat deals2 stages wonStage
                              avgWonOverride))
      with (progression (computeProgression (num:=num) stages deals2)).
    rewrite !progression_lookup.
    destruct (List.find (λ p, bool_decide (edge_key (fst p) (snd p) = k))
                (rev (adjacent stages))) as [[s s1]|]; [|done].
    simpl. intros [= <-]. eexists _, _. split_and!; [done..| |].
    + cbn [edge_for from_reached fst]. apply reading_app.
    + cbn [edge_for progressed fst snd].
      apply (progression_counts_app stages deals1 deals2 (edge_key s s1) s).
Qed.
End MergeFacts.

(** ** The request window *)

Lemma split_on_length sep s : length (split_on sep s) = S (occurrences sep s).
Proof.
  induction s as [|c s IH]; simpl; [done|].
  destruct (Ascii.eqb c sep); simpl; [by rewrite IH|].
  destruct (split_on sep s) as [|x t]; simpl in *; [done|lia].
Qed.

Lemma split_on_app sep s extra :
  split_on sep (s +:+ String sep extra) = split_on sep s ++ split_on sep extra.
Proof.
  induction s as [|c s IH]; simpl.
  - by rewrite Ascii.eqb_refl.
  - destruct (Ascii.eqb c sep); [by rewrite IH|]. rewrite IH.
    pose proof (split_on_length sep s) as Hlen.
    by destruct (split_on sep s).
Qed.

Section WindowFacts.
Context {num : Type} `{!JsNumber num} (h : host num).

Lemma parseDateOnly_incomplete d :
  incomplete_date d → parseDateOnly h d = None.
Proof.
  unfold parseDateOnly. intros [->|[->|(s & -> & Hs)]]; [done..|].
  destruct (truthy_opt (Some s)); [|done]. simpl.
  pose proof (split_on_length "-" s) as Hlen.
  destruct (split_on "-" s) as [|y [|m [|day rest]]]; simpl in *; try done; lia.
Qed.

(** [parseDateOnly] yields [null] for a parameter that is absent, empty or
    has fewer than three dash-separated fields, and it reads the first three
    fields only: whatever follows a third dash is ignored. *)
Theorem parseDateOnly_fields (d : option string) (s extra : string) :
  (incomplete_date d → parseDateOnly h d = None)
  ∧ (occurrences "-" s = 2 →
     parseDateOnly h (Some (s +:+ String "-" extra)) = parseDateOnly h (Some s)).
Proof.
  split; [apply parseDateOnly_incomplete|].
  intros Hs. unfold parseDateOnly.
  assert (Hne : truthy_opt (Some s) = true).
  { destruct s; [done|reflexivity]. }
  assert (Hne' : truthy_opt (Some (s +:+ String "-" extra)) = true).
  { destruct s; reflexivity. }
  rewrite Hne, Hne'. simpl. rewrite split_on_app.
  pose proof (split_on_length "-" s) as Hlen. rewrite Hs in Hlen.
  destruct (split_on "-" s) as [|y [|m [|day [|x rest]]]]; simpl in *; done.
Qed.

(** A [days] parameter takes precedence over [start] and [end]; without it,
    a [start] that is absent or incomplete falls back to the first day of the
    current year and such an [end] falls back to the current time. *)
Theorem getRangeFromQuery_fallbacks (q : query) :
  (truthy_opt (q_days q) = true →
     rg_end (getRangeFromQuery h q) = Some (js_now h)
     ∧ ∀ q', q_days q' = q_days q →
             getRangeFromQuery h q' = getRangeFromQuery h q)
  ∧ (truthy_opt (q_days q) = false →
     (incomplete_date (q_start q) →
        rg_start (getRangeFromQuery h q) = Some (js_year_start h (js_now h)))
     ∧ (incomplete_date (q_end q) →
        rg_end (getRangeFromQuery h q) = Some (js_now h))).
Proof.
  unfold getRangeFromQuery. split.
  - intros Hd. rewrite Hd. split; [done|]. intros q' ->. by rewrite Hd.
  - intros Hd. rewrite Hd. cbn [rg_start rg_end].
    split; intros Hinc; by rewrite parseDateOnly_incomplete.
Qed.
End WindowFacts.

(** ** The request handler *)

Lemma resolveStages_wonStage_last res pipelineId friendlyOrder aliasMap r :
  resolveStages res pipelineId friendlyOrder aliasMap = Returns r →
  r_wonStage r = last (r_stages r).
Proof.
  destruct (select_pipeline (default [] (cat_results res)) pipelineId)
    as [pipe|] eqn:Hsel; [|by unfold resolveStages; rewrite Hsel].
  rewrite (resolveStages_found _ _ _ _ pipe Hsel).
  destruct (forallb _ friendlyOrder); [|done].
  cbv zeta. intros [= <-]. cbn [r_wonStage r_stages].
  destruct (findIdByAliases (stageList_of pipe) (aliases_of aliasMap "closedwon"))
    as [id|]; [|done].
  simpl. destruct (truthy_string id); [|done]. simpl. by rewrite last_snoc.
Qed.

Section HandlerFacts.
Context {num : Type} `{!JsNumber num} (h : host num).

(** Without a stage override, a catalog in which no pipeline is found makes
    the request fail with status 500 and the resolver's message, before any
    deal is fetched: the response does not depend on the deal store. *)
Theorem handleGetProbabilities_missing_pipeline
    (q : query) (res : catalog) (fuel : nat) (store : deal_store) :
  truthy_opt (q_stages q) = false →
  select_pipeline (default [] (cat_results res)) (or_null (q_pipeline q)) = None →
  handleGetProbabilities h fuel q (Returns res) store =
    Some (Failure 500 "No deal pipeline found for stage resolution").
Proof.
  intros Hst Hsel. unfold handleGetProbabilities, stage_config, resolveStages.
  by rewrite Hst, Hsel.
Qed.

(** A successful report is the statistics of the drained cohort of a valid
    window under the echoed stage configuration; the catalog is not consulted
    when a stage override is given; unless the query names a [wonStage] for
    its override, the echoed [wonStage] is the last echoed stage; and a
    non-empty [avgWon] parameter is the reported average. *)
Theorem handleGetProbabilities_report
    (fuel : nat) (q : query) (fetched_catalog : outcome catalog)
    (store : deal_store) (body : report num) :
  handleGetProbabilities h fuel q fetched_catalog store = Some (Success body) →
  (∃ s e deals,
     rg_start (getRangeFromQuery h q) = Some s ∧
     rg_end (getRangeFromQuery h q) = Some e ∧
     dealsCohort fuel store None (Some s) (Some e) (or_null (q_pipeline q)) =
       Some deals ∧
     rp_stats body =
       computeStats (js_parseFloat h) deals (rp_config_stages body)
         (rp_config_wonStage body)
         (if truthy_opt (q_avgWon q)
          then Some (js_Number h (default EmptyString (q_avgWon q))) else None))
  ∧ (truthy_opt (q_stages q) = true →
     ∀ other_catalog,
       handleGetProbabilities h fuel q other_catalog store = Some (Success body))
  ∧ (truthy_opt (q_stages q) = false ∨ truthy_opt (q_wonStage q) = false →
     rp_config_wonStage body = last (rp_config_stages body))
  ∧ (truthy_opt (q_avgWon q) = true →
     avgWon (rp_stats body) = js_Number h (default EmptyString (q_avgWon q))).
Proof.
  unfold handleGetProbabilities. cbv zeta. intros Hrun.
  assert (Hbypass : truthy_opt (q_stages q) = true →
            ∀ other, stage_config h q other = stage_config h q fetched_catalog).
  { intros Hst other. unfold stage_config. by rewrite Hst. }
  destruct (stage_config h q fetched_catalog) as [[stages wonStage]|message]
    eqn:Hcfg; [|done].
  destruct (dealsCohort fuel store None (rg_start (getRangeFromQuery h q))
              (rg_end (getRangeFromQuery h q)) (or_null (q_pipeline q)))
    as [deals|] eqn:Hdeals; [|done].
  destruct (rg_start (getRangeFromQuery h q)) as [s|] eqn:Hs; [|done].
  destruct (rg_end (getRangeFromQuery h q)) as [e|] eqn:He; [|done].
  injection Hrun as <-. cbn [rp_stats rp_config_stages rp_config_wonStage].
  split_and!.
  - exists s, e, deals. done.
  - intros Hst other. by rewrite (Hbypass Hst other).
  - intros Hwhich. unfold stage_config in Hcfg.
    destruct (truthy_opt (q_stages q)) eqn:Hst.
    + destruct Hwhich as [?|Hws]; [done|]. rewrite Hws in Hcfg.
      destruct (js_JSON_parse h (default EmptyString (q_stages q))); [|done].
      by injection Hcfg as <- <-.
    + destruct fetched_catalog as [res|]; [|done].
      destruct (resolveStages res (or_null (q_pipeline q)) FRIENDLY_ORDER
                  DEFAULT_ALIASES) as [r|] eqn:Hres; [|done].
      injection Hcfg as <- <-. by apply resolveStages_wonStage_last in Hres.
  - intros Havg. by rewrite Havg.
Qed.
End HandlerFacts.

Lemma parseDateOnly_fields_witness :
  occurrences "-" "2024-03-31" = 2
  ∧ parseDateOnly sample_host (Some ("2024-03-31" +:+ String "-" "x")) =
    parseDateOnly sample_host (Some "2024-03-31").
Proof.
  split; [reflexivity|].
  destruct (parseDateOnly_fields sample_host None "2024-03-31" "x") as [_ Hextra].
  exact (Hextra eq_refl).
Defined.

Lemma handleGetProbabilities_missing_pipeline_witness :
  truthy_opt (q_stages empty_query) = false
  ∧ handleGetProbabilities sample_host 0 empty_query no_catalog sample_store =
      Some (Failure 500 "No deal pipeline found for stage resolution").
Proof.
  split; [reflexivity|].
  exact (handleGetProbabilities_missing_pipeline sample_host empty_query
           {| cat_results := Some [] |} 0 sample_store eq_refl eq_refl).
Defined.

Example override_query_report :
  handleGetProbabilities sample_host 2 override_query no_catalog sample_store =
    Some (Success override_report).
Proof. vm_compute. reflexivity. Qed.

Lemma handleGetProbabilities_report_witness :
  handleGetProbabilities sample_host 2 override_query no_catalog sample_store =
    Some (Success override_report)
  ∧ rp_config_wonStage override_report = last (rp_config_stages override_report)
  ∧ avgWon (rp_stats override_report) = 500%Q.
Proof.
  assert (Hrun : handleGetProbabilities sample_host 2 override_query no_catalog
                   sample_store = Some (Success override_report))
    by (vm_compute; reflexivity).
  destruct (handleGetProbabilities_report sample_host 2 override_query no_catalog
              sample_store override_report Hrun) as (_ & _ & Hlast & Havg).
  split_and!; [exact Hrun|exact (Hlast (or_intror eq_refl))|exact (Havg eq_refl)].
Defined.
